(** * Galaxy Racer: Neon Drift -- the frame loop of the canvas game

    A shallow embedding of the simulation code of the [GalaxyRacer]
    component (helpers [clamp], [rand], [hit]; the session operations
    [damage], [applyPower], [restart]; the spawners; the per-frame [loop])
    and the properties of it that the specification states.

    Modelling conventions.
    - A JavaScript [number] is a real number ([R]): arithmetic is exact,
      [Math.hypot] is the Euclidean norm, [Math.sin] is [sin].  Rounding,
      infinities and NaN are outside the model.
    - React state ([score], [health], [running], [gameOver], [autofire])
      and the refs ([ship], the pools, [timers], [lastTime], [input]) are
      fields of one record [Game]; a functional state update
      [setX (fun v => f v)] is applied at once, which is what the queue of
      updaters computes by the next render.  The values the frame
      callback closes over ([running], [autofire], [health], [gameOver])
      are the ones of the state at the start of the frame.
    - [Math.random] reads an explicit stream of draws carried in the state.
    - The calls to the synthesiser are recorded, in order, in a log.
    - Drawing is not modelled. *)

From Stdlib Require Import Reals Lra Lia String List Bool ZArith Zfloor.
Import ListNotations.
Local Open Scope R_scope.

(** ** Numbers *)

(** The comparisons [a <= b] and [a < b] of the source, as booleans. *)
Definition Rleb (a b : R) : bool := if Rle_dec a b then true else false.
Definition Rltb (a b : R) : bool := if Rlt_dec a b then true else false.

(** [v || 1] on numbers: the value unless it is zero. *)
Definition orOne (v : R) : R := if Req_dec_T v 0 then 1 else v.

(** [Math.hypot(dx, dy)]. *)
Definition hypot (dx dy : R) : R := sqrt (dx * dx + dy * dy).

(** [const clamp = (v, min, max) => Math.max(min, Math.min(max, v))] *)
Definition clamp (v lo hi : R) : R := Rmax lo (Rmin hi v).

(** [const rand = (min, max) => Math.random() * (max - min) + min], given
    the draw [u]. *)
Definition rand_of (u lo hi : R) : R := u * (hi - lo) + lo.

(** [function hit(x1, y1, r1, x2, y2, r2)] *)
Definition hit (x1 y1 r1 x2 y2 r2 : R) : bool :=
  Rleb ((x1 - x2) ^ 2 + (y1 - y2) ^ 2) ((r1 + r2) ^ 2).

(** ** Entities *)

Record Vec := mkVec { v_x : R; v_y : R }.

Inductive EnemyType := drone | swoop | zig.
Inductive PowerKind := shield | rapid | heal.

Record Bullet := mkBullet
  { b_x : R; b_y : R; b_vx : R; b_vy : R; b_r : R; b_ttl : R; b_color : string }.

Record Enemy := mkEnemy
  { e_x : R; e_y : R; e_vx : R; e_vy : R; e_r : R; e_hp : R; e_type : EnemyType }.

Record Asteroid := mkAsteroid
  { a_x : R; a_y : R; a_vx : R; a_vy : R; a_r : R; a_spin : R; a_angle : R }.

Record PowerUp := mkPowerUp
  { p_x : R; p_y : R; p_vx : R; p_vy : R; p_r : R; p_kind : PowerKind; p_ttl : R }.

Record Ship := mkShip
  { s_x : R; s_y : R; s_r : R; s_speed : R; s_vx : R; s_vy : R;
    shieldT : R; rapidT : R }.

Record Timers := mkTimers
  { t_enemy : R; t_asteroid : R; t_power : R; t_shoot : R }.

(** The four sounds of [Synth]. *)
Inductive Sfx := SfxShoot | SfxHit | SfxBoom | SfxPower.

(** ** The state of the component *)

Record Game := mkGame
  { running : bool;
    score : R;
    health : R;
    gameOver : bool;
    autofire : bool;
    ship : Ship;
    bullets : list Bullet;
    enemies : list Enemy;
    asteroids : list Asteroid;
    powerups : list PowerUp;
    target : Vec;
    timers : Timers;
    lastTime : option R;
    sfx : list Sfx;
    rng : nat -> R }.

(** [useRef({ x: 200, y: 300, r: 14, speed: 420, vx: 0, vy: 0, shieldT: 0, rapidT: 0 })] *)
Definition ship0 : Ship := mkShip 200 300 14 420 0 0 0 0.

(** The state after the first render, for a given stream of draws. *)
Definition game0 (draws : nat -> R) : Game :=
  mkGame true 0 100 false true ship0 [] [] [] [] (mkVec 200 300)
         (mkTimers 0 0 5 0) None [] draws.

(** Field updates. *)
Definition set_running v g := mkGame v (score g) (health g) (gameOver g) (autofire g) (ship g) (bullets g) (enemies g) (asteroids g) (powerups g) (target g) (timers g) (lastTime g) (sfx g) (rng g).
Definition set_score v g := mkGame (running g) v (health g) (gameOver g) (autofire g) (ship g) (bullets g) (enemies g) (asteroids g) (powerups g) (target g) (timers g) (lastTime g) (sfx g) (rng g).
Definition set_health v g := mkGame (running g) (score g) v (gameOver g) (autofire g) (ship g) (bullets g) (enemies g) (asteroids g) (powerups g) (target g) (timers g) (lastTime g) (sfx g) (rng g).
Definition set_gameOver v g := mkGame (running g) (score g) (health g) v (autofire g) (ship g) (bullets g) (enemies g) (asteroids g) (powerups g) (target g) (timers g) (lastTime g) (sfx g) (rng g).
Definition set_ship v g := mkGame (running g) (score g) (health g) (gameOver g) (autofire g) v (bullets g) (enemies g) (asteroids g) (powerups g) (target g) (timers g) (lastTime g) (sfx g) (rng g).
Definition set_bullets v g := mkGame (running g) (score g) (health g) (gameOver g) (autofire g) (ship g) v (enemies g) (asteroids g) (powerups g) (target g) (timers g) (lastTime g) (sfx g) (rng g).
Definition set_enemies v g := mkGame (running g) (score g) (health g) (gameOver g) (autofire g) (ship g) (bullets g) v (asteroids g) (powerups g) (target g) (timers g) (lastTime g) (sfx g) (rng g).
Definition set_asteroids v g := mkGame (running g) (score g) (health g) (gameOver g) (autofire g) (ship g) (bullets g) (enemies g) v (powerups g) (target g) (timers g) (lastTime g) (sfx g) (rng g).
Definition set_powerups v g := mkGame (running g) (score g) (health g) (gameOver g) (autofire g) (ship g) (bullets g) (enemies g) (asteroids g) v (target g) (timers g) (lastTime g) (sfx g) (rng g).
Definition set_timers v g := mkGame (running g) (score g) (health g) (gameOver g) (autofire g) (ship g) (bullets g) (enemies g) (asteroids g) (powerups g) (target g) v (lastTime g) (sfx g) (rng g).
Definition set_lastTime v g := mkGame (running g) (score g) (health g) (gameOver g) (autofire g) (ship g) (bullets g) (enemies g) (asteroids g) (powerups g) (target g) (timers g) v (sfx g) (rng g).
Definition set_sfx v g := mkGame (running g) (score g) (health g) (gameOver g) (autofire g) (ship g) (bullets g) (enemies g) (asteroids g) (powerups g) (target g) (timers g) (lastTime g) v (rng g).
Definition set_rng v g := mkGame (running g) (score g) (health g) (gameOver g) (autofire g) (ship g) (bullets g) (enemies g) (asteroids g) (powerups g) (target g) (timers g) (lastTime g) (sfx g) v.

(** A call [synth.x ()]: the sound is appended to the log. *)
Definition play (s : Sfx) (g : Game) : Game := set_sfx (sfx g ++ [s]) g.

(** [Math.random()]: the head of the stream, which is then advanced. *)
Definition random (g : Game) : R * Game :=
  (rng g 0%nat, set_rng (fun n => rng g (S n)) g).

(** [rand(min, max)] *)
Definition rand (lo hi : R) (g : Game) : R * Game :=
  let (u, g1) := random g in (rand_of u lo hi, g1).

(** ** Difficulty *)

(** [difficulty.current = Math.min(6, 1 + score / 400)], recomputed by the
    effect that depends on [score]. *)
Definition difficulty (sc : R) : R := Rmin 6 (1 + sc / 400).

(** The level of the HUD:
    [Math.max(1, Math.min(6, 1 + Math.floor(score / 400)))]. *)
Definition level (sc : R) : Z := Z.max 1 (Z.min 6 (1 + Zfloor (sc / 400))).

(** The interval to the next hostile, [rand(0.5, 1.2) / Math.max(1, d)],
    and to the next obstacle, [rand(0.8, 1.6) / Math.max(1, d)], for the
    draw [u] and the difficulty [d]. *)
Definition enemyInterval (u d : R) : R := rand_of u 0.5 1.2 / Rmax 1 d.
Definition asteroidInterval (u d : R) : R := rand_of u 0.8 1.6 / Rmax 1 d.

(** ** Session operations *)

(** [function damage(dmg)] *)
Definition damage (dmg : R) (g : Game) : Game :=
  if Rltb 0 (shieldT (ship g)) then play SfxHit g
  else play SfxHit (set_health (Rmax 0 (health g - dmg)) g).

Definition set_shieldT (v : R) (s : Ship) : Ship :=
  mkShip (s_x s) (s_y s) (s_r s) (s_speed s) (s_vx s) (s_vy s) v (rapidT s).
Definition set_rapidT (v : R) (s : Ship) : Ship :=
  mkShip (s_x s) (s_y s) (s_r s) (s_speed s) (s_vx s) (s_vy s) (shieldT s) v.
Definition set_pos (x y : R) (s : Ship) : Ship :=
  mkShip x y (s_r s) (s_speed s) (s_vx s) (s_vy s) (shieldT s) (rapidT s).

(** [function applyPower(kind)] *)
Definition applyPower (kind : PowerKind) (g : Game) : Game :=
  let g1 := match kind with
            | shield => set_ship (set_shieldT 4 (ship g)) g
            | rapid => set_ship (set_rapidT 5 (ship g)) g
            | heal => set_health (Rmin 100 (health g + 20)) g
            end in
  play SfxPower (set_score (score g1 + 25) g1).

(** [function restart()] *)
Definition restart (g : Game) : Game :=
  set_running true
    (set_ship ship0
      (set_powerups []
        (set_asteroids []
          (set_enemies []
            (set_bullets []
              (set_gameOver false (set_health 100 (set_score 0 g)))))))).

(** ** Elapsed time *)

(** [const prev = lastTime.current ?? t;
     const dt = Math.min(0.032, (t - prev) / 1000);] *)
Definition frame_dt (last : option R) (t : R) : R :=
  let prev := match last with Some p => p | None => t end in
  Rmin 0.032 ((t - prev) / 1000).

(** ** Moving the ship toward the target *)

(** The position reached by the lines [shipObj.x += dx * step] and
    [shipObj.y += dy * step] of [loop], before the clamp, for the pixel
    ratio [dpr], the target [tg] and the elapsed time [dt]. *)
Definition moveToward (dpr dt : R) (tg : Vec) (s : Ship) : R * R :=
  let dx := v_x tg * dpr - s_x s in
  let dy := v_y tg * dpr - s_y s in
  let dist := orOne (hypot dx dy) in
  let maxMove := s_speed s * dt * dpr in
  let step := Rmin 1 (maxMove / dist) in
  (s_x s + dx * step, s_y s + dy * step).

(** The block "Move ship toward target" of [loop], for the canvas size
    [W] x [H]: the move, then the clamp of both coordinates. *)
Definition moveShip (W H dpr dt : R) (tg : Vec) (s : Ship) : Ship :=
  let (x1, y1) := moveToward dpr dt tg s in
  set_pos (clamp x1 (20 * dpr) (W - 20 * dpr))
          (clamp y1 (20 * dpr) (H - 20 * dpr)) s.

(** ** Spawners *)

(** [function spawnBullet(x, y, vx, vy, color)] *)
Definition spawnBullet (dpr x y vx vy : R) (color : string) (g : Game) : Game :=
  set_bullets (bullets g ++ [mkBullet x y vx vy (4 * dpr) 2 color]) g.

(** [function spawnEnemy(W, H, dpr)]; [d] is [difficulty.current]. *)
Definition spawnEnemy (W H dpr d : R) (g : Game) : Game :=
  let (typePick, g1) := random g in
  let type := if Rltb typePick 0.5 then drone
              else if Rltb typePick 0.8 then swoop else zig in
  let (r0, g2) := rand 12 18 g1 in
  let r := r0 * dpr in
  let (x, g3) := rand (r + 10) (W - r - 10) g2 in
  let y := - r - 20 in
  let speedScale := 0.8 + 0.6 * Rmax 1 d in
  let (vy0, g4) := rand 80 180 g3 in
  let vy := vy0 * dpr * speedScale in
  let (vx, g5) := match type with
                  | drone => (0, g4)
                  | _ => let (vx0, g') := rand (-60) 60 g4 in
                         (vx0 * dpr * (0.8 + 0.4 * Rmax 1 d), g')
                  end in
  let baseHp := match type with drone => 1 | _ => 2 end in
  let extraHp := Rmax 0 (IZR (Zfloor (Rmax 1 d - 1.5))) in
  set_enemies (enemies g5 ++ [mkEnemy x y vx vy r (baseHp + extraHp) type]) g5.

(** [function spawnAsteroid(W, H, dpr)] *)
Definition spawnAsteroid (W H dpr d : R) (g : Game) : Game :=
  let (r0, g1) := rand 16 34 g in
  let r := r0 * dpr in
  let (x, g2) := rand (r + 10) (W - r - 10) g1 in
  let y := - r - 30 in
  let speedScale := 0.7 + 0.5 * Rmax 1 d in
  let (vy0, g3) := rand 60 140 g2 in
  let vy := vy0 * dpr * speedScale in
  let (vx0, g4) := rand (-40) 40 g3 in
  let vx := vx0 * dpr * (0.8 + 0.3 * Rmax 1 d) in
  let (spin, g5) := rand (-2) 2 g4 in
  let (angle, g6) := rand 0 (PI * 2) g5 in
  set_asteroids (asteroids g6 ++ [mkAsteroid x y vx vy r spin angle]) g6.

(** The choice of the kind of a pickup from the draws:
    [Math.random() < 0.4 ? "shield" : Math.random() < 0.6 ? "heal" : "rapid"].
    The second draw is made only when the first test fails. *)
Definition pickKind (g : Game) : PowerKind * Game :=
  let (u1, g1) := random g in
  if Rltb u1 0.4 then (shield, g1)
  else let (u2, g2) := random g1 in
       if Rltb u2 0.6 then (heal, g2) else (rapid, g2).

(** [function spawnPowerUp(W, dpr, pos?)] *)
Definition spawnPowerUp (W dpr : R) (pos : option Vec) (g : Game) : Game :=
  let (kind, g1) := pickKind g in
  let r := 10 * dpr in
  let (x, g2) := match pos with
                 | Some p => (v_x p, g1)
                 | None => rand (r + 20) (W - r - 20) g1
                 end in
  let y := match pos with Some p => v_y p | None => - r - 20 end in
  let (vy0, g3) := rand 70 110 g2 in
  set_powerups (powerups g3 ++ [mkPowerUp x y 0 (vy0 * dpr) r kind 8]) g3.

(** ** The frame callback *)

(** Block "Timers". *)
Definition tickTimers (dt : R) (tm : Timers) : Timers :=
  mkTimers (t_enemy tm - dt) (t_asteroid tm - dt) (t_power tm - dt) (t_shoot tm - dt).

Definition set_t_enemy v tm := mkTimers v (t_asteroid tm) (t_power tm) (t_shoot tm).
Definition set_t_asteroid v tm := mkTimers (t_enemy tm) v (t_power tm) (t_shoot tm).
Definition set_t_power v tm := mkTimers (t_enemy tm) (t_asteroid tm) v (t_shoot tm).
Definition set_t_shoot v tm := mkTimers (t_enemy tm) (t_asteroid tm) (t_power tm) v.

(** Block "Shooting"; [auto] is the value of [autofire] seen by the callback. *)
Definition shooting (dpr : R) (auto : bool) (g : Game) : Game :=
  let s := ship g in
  let baseFireRate := if Rltb 0 (rapidT s) then 0.08 else 0.18 in
  if auto && Rleb (t_shoot (timers g)) 0 then
    let g1 := spawnBullet dpr (s_x s) (s_y s - 14 * dpr) 0 (-900 * dpr) "#00fff0" g in
    let g2 := if Rltb 0 (rapidT s) then
                spawnBullet dpr (s_x s + 8 * dpr) (s_y s - 10 * dpr) (200 * dpr) (-820 * dpr) "#ff00e6"
                  (spawnBullet dpr (s_x s - 8 * dpr) (s_y s - 10 * dpr) (-200 * dpr) (-820 * dpr) "#ff00e6" g1)
              else g1 in
    play SfxShoot (set_timers (set_t_shoot baseFireRate (timers g2)) g2)
  else g.

(** Block "Spawn"; [d] is [difficulty.current]. *)
Definition spawning (W H dpr d : R) (g : Game) : Game :=
  let g1 := if Rleb (t_enemy (timers g)) 0 then
              let (u, g') := random (spawnEnemy W H dpr d g) in
              set_timers (set_t_enemy (enemyInterval u d) (timers g')) g'
            else g in
  let g2 := if Rleb (t_asteroid (timers g1)) 0 then
              let (u, g') := random (spawnAsteroid W H dpr d g1) in
              set_timers (set_t_asteroid (asteroidInterval u d) (timers g')) g'
            else g1 in
  if Rleb (t_power (timers g2)) 0 then
    let (v, g') := rand 8 14 (spawnPowerUp W dpr None g2) in
    set_timers (set_t_power v (timers g')) g'
  else g2.

(** Block "Update bullets".  The filter decrements [ttl] of every bullet
    as it tests it; the bullets kept are then moved. *)
Definition bulletAlive (b : Bullet) : bool :=
  Rltb 0 (b_ttl b) && Rltb (-20) (b_y b + b_r b).

Definition updateBullets (dt : R) (bs : list Bullet) : list Bullet :=
  map (fun b => mkBullet (b_x b + b_vx b * dt) (b_y b + b_vy b * dt)
                         (b_vx b) (b_vy b) (b_r b) (b_ttl b) (b_color b))
      (filter bulletAlive
         (map (fun b => mkBullet (b_x b) (b_y b) (b_vx b) (b_vy b) (b_r b)
                                 (b_ttl b - dt) (b_color b)) bs)).

(** Block "Update enemies".  The entries pushed on [toRemoveEnemies] are
    the ones for which the test holds after the move, so the filter on
    membership is the filter on the test. *)
Definition stepEnemy (t dt : R) (e : Enemy) : Enemy :=
  let vx := match e_type e with
            | swoop => e_vx e + sin (t * 0.005 + e_x e * 0.01) * 3
            | zig => sin (t * 0.004 + e_y e * 0.02) * 80
            | drone => e_vx e
            end in
  mkEnemy (e_x e + vx * dt) (e_y e + e_vy e * dt) vx (e_vy e) (e_r e) (e_hp e) (e_type e).

Definition enemyGone (H : R) (e : Enemy) : bool := Rltb (H + 50) (e_y e - e_r e).

Definition updateEnemies (H t dt : R) (es : list Enemy) : list Enemy :=
  filter (fun e => negb (enemyGone H e)) (map (stepEnemy t dt) es).

(** Block "Update asteroids". *)
Definition stepAsteroid (dt : R) (a : Asteroid) : Asteroid :=
  mkAsteroid (a_x a + a_vx a * dt) (a_y a + a_vy a * dt) (a_vx a) (a_vy a)
             (a_r a) (a_spin a) (a_angle a + a_spin a * dt).

Definition asteroidGone (H : R) (a : Asteroid) : bool := Rltb (H + 60) (a_y a - a_r a).

Definition updateAsteroids (H dt : R) (l : list Asteroid) : list Asteroid :=
  filter (fun a => negb (asteroidGone H a)) (map (stepAsteroid dt) l).

(** Block "Update powerups". *)
Definition stepPowerUp (dt : R) (p : PowerUp) : PowerUp :=
  mkPowerUp (p_x p + p_vx p * dt) (p_y p + p_vy p * dt) (p_vx p) (p_vy p)
            (p_r p) (p_kind p) (p_ttl p - dt).

Definition powerUpGone (H : R) (p : PowerUp) : bool :=
  Rleb (p_ttl p) 0 || Rltb (H + 40) (p_y p - p_r p).

Definition updatePowerUps (H dt : R) (l : list PowerUp) : list PowerUp :=
  filter (fun p => negb (powerUpGone H p)) (map (stepPowerUp dt) l).

(** Block "Effects timers". *)
Definition decayEffects (dt : R) (s : Ship) : Ship :=
  set_rapidT (Rmax 0 (rapidT s - dt)) (set_shieldT (Rmax 0 (shieldT s - dt)) s).

(** Block "Collisions: bullets vs enemies".  The inner loop, for one
    bullet [b] over the hostiles [es]; [cw] and [ch] are [canvas.width]
    and [canvas.height].  The bullet and the hostiles are objects updated
    in place: the function returns them as the loop leaves them. *)
Fixpoint bulletVsEnemies (cw ch dpr : R) (b : Bullet) (es : list Enemy) (g : Game)
  : Bullet * list Enemy * Game :=
  match es with
  | [] => (b, [], g)
  | e :: es' =>
      if hit (b_x b) (b_y b) (b_r b) (e_x e) (e_y e) (e_r e) then
        let b1 := mkBullet (b_x b) (b_y b) (b_vx b) (b_vy b) (b_r b) 0 (b_color b) in
        let hp := e_hp e - 1 in
        if Rleb hp 0 then
          let g1 := set_score (score g + 50) g in
          let (u, g2) := random g1 in
          let g3 := if Rltb u 0.04
                    then spawnPowerUp cw dpr (Some (mkVec (e_x e) (e_y e))) g2
                    else g2 in
          let g4 := play SfxBoom g3 in
          let e1 := mkEnemy (e_x e) (ch + 100) (e_vx e) (e_vy e) (e_r e) hp (e_type e) in
          let '(b2, es2, g5) := bulletVsEnemies cw ch dpr b1 es' g4 in
          (b2, e1 :: es2, g5)
        else
          let e1 := mkEnemy (e_x e) (e_y e) (e_vx e) (e_vy e) (e_r e) hp (e_type e) in
          let '(b2, es2, g5) := bulletVsEnemies cw ch dpr b1 es' (play SfxHit g) in
          (b2, e1 :: es2, g5)
      else
        let '(b2, es2, g5) := bulletVsEnemies cw ch dpr b es' g in
        (b2, e :: es2, g5)
  end.

(** The outer loop, over the bullets. *)
Fixpoint bulletsVsEnemies (cw ch dpr : R) (bs : list Bullet) (es : list Enemy) (g : Game)
  : list Bullet * list Enemy * Game :=
  match bs with
  | [] => ([], es, g)
  | b :: bs' =>
      let '(b1, es1, g1) := bulletVsEnemies cw ch dpr b es g in
      let '(bs2, es2, g2) := bulletsVsEnemies cw ch dpr bs' es1 g1 in
      (b1 :: bs2, es2, g2)
  end.

(** Block "Collisions: ship vs enemies/asteroids/powerups", one loop each. *)
Fixpoint shipVsEnemies (H : R) (es : list Enemy) (g : Game) : list Enemy * Game :=
  match es with
  | [] => ([], g)
  | e :: es' =>
      let s := ship g in
      if hit (s_x s) (s_y s) (s_r s) (e_x e) (e_y e) (e_r e) then
        let (es2, g2) := shipVsEnemies H es' (damage 20 g) in
        (mkEnemy (e_x e) (H + 100) (e_vx e) (e_vy e) (e_r e) (e_hp e) (e_type e) :: es2, g2)
      else
        let (es2, g2) := shipVsEnemies H es' g in (e :: es2, g2)
  end.

Fixpoint shipVsAsteroids (H : R) (l : list Asteroid) (g : Game) : list Asteroid * Game :=
  match l with
  | [] => ([], g)
  | a :: l' =>
      let s := ship g in
      if hit (s_x s) (s_y s) (s_r s + 2) (a_x a) (a_y a) (a_r a) then
        let (l2, g2) := shipVsAsteroids H l' (damage 15 g) in
        (mkAsteroid (a_x a) (H + 100) (a_vx a) (a_vy a) (a_r a) (a_spin a) (a_angle a) :: l2, g2)
      else
        let (l2, g2) := shipVsAsteroids H l' g in (a :: l2, g2)
  end.

Fixpoint shipVsPowerUps (l : list PowerUp) (g : Game) : list PowerUp * Game :=
  match l with
  | [] => ([], g)
  | p :: l' =>
      let s := ship g in
      if hit (s_x s) (s_y s) (s_r s + 4) (p_x p) (p_y p) (p_r p) then
        let (l2, g2) := shipVsPowerUps l' (applyPower (p_kind p) g) in
        (mkPowerUp (p_x p) (p_y p) (p_vx p) (p_vy p) (p_r p) (p_kind p) 0 :: l2, g2)
      else
        let (l2, g2) := shipVsPowerUps l' g in (p :: l2, g2)
  end.

(** The collisions of one frame, in the order of the source.  A pickup
    spawned at the site of a destroyed hostile is pushed on the pool
    before the loop over the pickups starts, and is visited by it. *)
Definition collisions (W H dpr : R) (g : Game) : Game :=
  let '(bs, es, g1) := bulletsVsEnemies W H dpr (bullets g) (enemies g) g in
  let g2 := set_enemies es (set_bullets bs g1) in
  let (es', g3) := shipVsEnemies H (enemies g2) g2 in
  let g4 := set_enemies es' g3 in
  let (l, g5) := shipVsAsteroids H (asteroids g4) g4 in
  let g6 := set_asteroids l g5 in
  let (ps, g7) := shipVsPowerUps (powerups g6) g6 in
  set_powerups ps g7.

(** [const loop = (t: number) => ...] for the canvas size [W] x [H] and
    the pixel ratio [dpr].  The request for the next frame is implicit:
    the next call of [loop] is the next frame. *)
Definition loop (W H dpr t : R) (g : Game) : Game :=
  if negb (running g) then set_lastTime (Some t) g
  else
    let dt := frame_dt (lastTime g) t in
    let g1 := set_lastTime (Some t) g in
    let g2 := set_ship (moveShip W H dpr dt (target g1) (ship g1)) g1 in
    let g3 := set_timers (tickTimers dt (timers g2)) g2 in
    let g4 := shooting dpr (autofire g) g3 in
    let g5 := spawning W H dpr (difficulty (score g)) g4 in
    let g6 := set_bullets (updateBullets dt (bullets g5)) g5 in
    let g7 := set_enemies (updateEnemies H t dt (enemies g6)) g6 in
    let g8 := set_asteroids (updateAsteroids H dt (asteroids g7)) g7 in
    let g9 := set_powerups (updatePowerUps H dt (powerups g8)) g8 in
    let g10 := set_ship (decayEffects dt (ship g9)) g9 in
    let g11 := collisions W H dpr g10 in
    if Rleb (health g) 0 && negb (gameOver g)
    then set_running false (set_gameOver true g11)
    else g11.

(** ** Runs of the game *)

(** What happens to the session between two renders: a frame of the loop,
    a call of [damage] or of [applyPower], a [restart]. *)
Inductive SessionOp :=
| OpDamage (dmg : R)
| OpPower (kind : PowerKind)
| OpRestart
| OpFrame (W H dpr t : R).

Definition applyOp (g : Game) (op : SessionOp) : Game :=
  match op with
  | OpDamage dmg => damage dmg g
  | OpPower kind => applyPower kind g
  | OpRestart => restart g
  | OpFrame W H dpr t => loop W H dpr t g
  end.

Definition runOps (ops : list SessionOp) (g : Game) : Game :=
  fold_left applyOp ops g.

(** The amounts of damage are not negative (the loop passes 20 and 15). *)
Definition opOk (op : SessionOp) : Prop :=
  match op with OpDamage dmg => 0 <= dmg | _ => True end.

(** The health is within its range. *)
Definition healthOk (g : Game) : Prop := 0 <= health g <= 100.

(** The fields that the spawners, the shots and the loop of the bullets
    over the hostiles leave as they are. *)
Definition sameCore (g g' : Game) : Prop :=
  health g' = health g /\ ship g' = ship g /\ lastTime g' = lastTime g
  /\ running g' = running g /\ gameOver g' = gameOver g.

(** The fields that the loops of the ship over the pools leave as they
    are: the position of the ship and the recorded timestamp. *)
Definition samePos (g g' : Game) : Prop :=
  s_x (ship g') = s_x (ship g) /\ s_y (ship g') = s_y (ship g)
  /\ lastTime g' = lastTime g.

(** ** The distribution of the kind of a pickup *)

(** A stream of draws that starts with [u1], [u2]. *)
Definition draws2 (u1 u2 : R) : nat -> R :=
  fun n => match n with O => u1 | S _ => u2 end.

(** The kind that [spawnPowerUp] picks when the next draws are [u1], [u2]. *)
Definition kindOfDraws (u1 u2 : R) : PowerKind :=
  fst (pickKind (game0 (draws2 u1 u2))).

Definition kind_eqb (a b : PowerKind) : bool :=
  match a, b with
  | shield, shield | rapid, rapid | heal, heal => true
  | _, _ => false
  end.

(** A draw uniform on [0, 1), at the resolution [N]: the [N] values
    [k / N], [k < N], each as likely as any other. *)
Definition grid (N : nat) : list R := map (fun k => INR k / INR N) (seq 0 N).

(** Among the [N * N] equally likely pairs of draws, the number of those
    for which the kind [k] is picked, and its share: the probability of
    [k] for two independent uniform draws at the resolution [N]. *)
Definition kindCount (N : nat) (k : PowerKind) : nat :=
  length (filter (fun uv => kind_eqb (kindOfDraws (fst uv) (snd uv)) k)
                 (list_prod (grid N) (grid N))).

Definition kindProb (N : nat) (k : PowerKind) : R :=
  INR (kindCount N k) / INR (N * N).


(** ** Controls *)

Definition set_autofire v g := mkGame (running g) (score g) (health g) (gameOver g) v (ship g) (bullets g) (enemies g) (asteroids g) (powerups g) (target g) (timers g) (lastTime g) (sfx g) (rng g).
Definition set_target v g := mkGame (running g) (score g) (health g) (gameOver g) (autofire g) (ship g) (bullets g) (enemies g) (asteroids g) (powerups g) v (timers g) (lastTime g) (sfx g) (rng g).

(** [setRunning((r) => !r)]: the Pause/Resume buttons and the keys P, Esc. *)
Definition togglePause (g : Game) : Game := set_running (negb (running g)) g.

(** [setAutofire((a) => !a)]: the Autofire buttons and the space bar. *)
Definition toggleAutofire (g : Game) : Game := set_autofire (negb (autofire g)) g.


(** [String.prototype.toLowerCase], on the ASCII letters. *)
Definition lowerAscii (c : Ascii.ascii) : Ascii.ascii :=
  let n := Ascii.nat_of_ascii c in
  if ((65 <=? n) && (n <=? 90))%nat then Ascii.ascii_of_nat (n + 32) else c.

Fixpoint toLowerCase (s : string) : string :=
  match s with
  | EmptyString => EmptyString
  | String c s' => String (lowerAscii c) (toLowerCase s')
  end.

(** A keyboard event: [e.key], [e.code] (the empty string when it is
    missing), [e.type] and [e.repeat]. *)
Inductive KeyType := keydown | keyup.

Record KeyEvent := mkKeyEvent
  { k_key : string; k_code : string; k_type : KeyType; k_repeat : bool }.

(** [const keys: Record<string, boolean> = {}]; a key that was never
    written reads as false. *)
Definition Keys := string -> bool.

Definition noKeys : Keys := fun _ => false.

Definition setKey (keys : Keys) (k : string) (v : bool) : Keys :=
  fun k' => if String.eqb k' k then v else keys k'.

Definition isDown (e : KeyEvent) : bool :=
  match k_type e with keydown => true | keyup => false end.

(** [key === " " || code === "space" || key === "Spacebar"] *)
Definition isSpace (e : KeyEvent) : bool :=
  String.eqb (k_key e) " " || String.eqb (toLowerCase (k_code e)) "space"
  || String.eqb (k_key e) "Spacebar".

(** [const onKey = (e: KeyboardEvent) => ...].  The result is whether
    [e.preventDefault()] was called, the table of the keys held, and the
    state. *)
Definition onKey (e : KeyEvent) (keys : Keys) (g : Game) : bool * Keys * Game :=
  let lower := toLowerCase (k_key e) in
  let code := toLowerCase (k_code e) in
  let handled :=
    existsb (String.eqb lower)
      ["arrowup"; "arrowdown"; "arrowleft"; "arrowright"; "w"; "a"; "s"; "d"]%string
    || isSpace e in
  let keys' := setKey keys lower (isDown e) in
  if isDown e && k_repeat e then (handled, keys', g)
  else
    let g1 := if isSpace e && isDown e then toggleAutofire g else g in
    let g2 := if (String.eqb lower "p" || String.eqb lower "escape") && isDown e
              then togglePause g1 else g1 in
    let g3 := if (String.eqb lower "r" || String.eqb code "enter") && isDown e
                 && gameOver g
              then restart g2 else g2 in
    (handled, keys', g3).

(** [a !== 0] on numbers. *)
Definition Rneqb (a b : R) : bool := if Req_dec_T a b then false else true.

(** The steps of the target along each axis in the callback of
    [setInterval]: [dx] and [dy] for the keys held and the speed [sp]. *)
Definition keyDx (keys : Keys) (sp : R) : R :=
  let dx := 0 in
  let dx := if keys "arrowleft"%string || keys "a"%string then dx - sp else dx in
  if keys "arrowright"%string || keys "d"%string then dx + sp else dx.

Definition keyDy (keys : Keys) (sp : R) : R :=
  let dy := 0 in
  let dy := if keys "arrowup"%string || keys "w"%string then dy - sp else dy in
  if keys "arrowdown"%string || keys "s"%string then dy + sp else dy.

(** The callback of [setInterval(..., 16)] of the keyboard effect. *)
Definition keyTick (dpr : R) (keys : Keys) (g : Game) : Game :=
  let sp := s_speed (ship g) * 0.16 in
  let dx := keyDx keys sp in
  let dy := keyDy keys sp in
  if Rneqb dx 0 || Rneqb dy 0
  then set_target (mkVec (s_x (ship g) / dpr + dx) (s_y (ship g) / dpr + dy)) g
  else g.

(** ** The canvas *)

(** [Math.min(window.devicePixelRatio || 1, 2)] *)
Definition dprOf (ratio : R) : R := Rmin (orOne ratio) 2.

(** [canvas.width = Math.floor(w * dpr)], and the same for the height. *)
Definition canvasSize (w dpr : R) : R := IZR (Zfloor (w * dpr)).

(** ** The starfield *)

Record Star := mkStar { st_x : R; st_y : R; st_z : R }.

(** The loop of [makeStars]: [count] more stars are pushed on [arr]. *)
Fixpoint makeStarsLoop (count : nat) (arr : list Star) (g : Game) : list Star * Game :=
  match count with
  | O => (arr, g)
  | S count' =>
      let (x, g1) := rand 0 1 g in
      let (y, g2) := rand 0 1 g1 in
      let (z, g3) := rand 0.2 1 g2 in
      makeStarsLoop count' (arr ++ [mkStar x y z]) g3
  end.

(** [makeStars]: 320 stars. *)
Definition makeStars (g : Game) : list Star * Game := makeStarsLoop 320 [] g.

(** The update of a star in [drawBackground]:
    [s.y += speed * 0.016; if (s.y > 1) s.y = 0]. *)
Definition stepStar (dpr : R) (s : Star) : Star :=
  let speed := (1.2 - st_z s) * 60 * dpr in
  let y := st_y s + speed * 0.016 in
  mkStar (st_x s) (if Rltb 1 y then 0 else y) (st_z s).

(** ** The gate of the home page *)

Record Home := mkHome { started : bool; showGate : bool }.

(** [useState(false)], [useState(true)] *)
Definition home0 : Home := mkHome false true.

Definition handlePlay (h : Home) : Home := mkHome true false.
Definition handleClose (h : Home) : Home := mkHome false false.

Inductive HomeClick := ClickPlay | ClickClose.

Definition homeClick (h : Home) (c : HomeClick) : Home :=
  match c with ClickPlay => handlePlay h | ClickClose => handleClose h end.

(** The effect on [showGate]: the class that prevents the page from
    scrolling is on the document exactly while the gate is shown. *)
Definition scrollLocked (h : Home) : bool := showGate h.

(** ** Counting *)

(** The hostiles that the ship overlaps, the obstacles, the hostiles
    without hit points. *)
Definition rammedBy (s : Ship) (e : Enemy) : bool :=
  hit (s_x s) (s_y s) (s_r s) (e_x e) (e_y e) (e_r e).

Definition struckBy (s : Ship) (a : Asteroid) : bool :=
  hit (s_x s) (s_y s) (s_r s + 2) (a_x a) (a_y a) (a_r a).

Definition isDead (e : Enemy) : bool := Rleb (e_hp e) 0.

Definition bulletHits (b : Bullet) (e : Enemy) : bool :=
  hit (b_x b) (b_y b) (b_r b) (e_x e) (e_y e) (e_r e).

(** Frames at the timestamps [ts], in order, on a canvas that keeps its
    size. *)
Definition runFrames (W H dpr : R) (ts : list R) (g : Game) : Game :=
  fold_left (fun g t => loop W H dpr t g) ts g.


(** A star as [makeStars] makes it: [x] and [y] in [0, 1), [z] in [0.2, 1). *)
Definition starOk (s : Star) : Prop :=
  0 <= st_x s < 1 /\ 0 <= st_y s < 1 /\ 0.2 <= st_z s < 1.

(** The sum of a list of numbers. *)
Definition Rsum (l : list R) : R := fold_right Rplus 0 l.

(** The decay of the effects over the frames of elapsed times [ds]. *)
Definition decayAll (ds : list R) (s : Ship) : Ship :=
  fold_left (fun s d => decayEffects d s) ds s.


(** The marks that the collisions put on an entry: a hostile or an
    obstacle is moved below the canvas. *)
Definition markEnemy (H : R) (e : Enemy) : Enemy :=
  mkEnemy (e_x e) (H + 100) (e_vx e) (e_vy e) (e_r e) (e_hp e) (e_type e).

Definition markAsteroid (H : R) (a : Asteroid) : Asteroid :=
  mkAsteroid (a_x a) (H + 100) (a_vx a) (a_vy a) (a_r a) (a_spin a) (a_angle a).

(** The number of entries of a list that pass a test. *)
Definition countIf {A : Type} (f : A -> bool) (l : list A) : nat :=
  length (filter f l).


(** The state that a frame that runs hands to its collisions: [loop] up
    to the block "Effects timers". *)
Definition preCollision (W H dpr t : R) (g : Game) : Game :=
  let dt := frame_dt (lastTime g) t in
  let g1 := set_lastTime (Some t) g in
  let g2 := set_ship (moveShip W H dpr dt (target g1) (ship g1)) g1 in
  let g3 := set_timers (tickTimers dt (timers g2)) g2 in
  let g4 := shooting dpr (autofire g) g3 in
  let g5 := spawning W H dpr (difficulty (score g)) g4 in
  let g6 := set_bullets (updateBullets dt (bullets g5)) g5 in
  let g7 := set_enemies (updateEnemies H t dt (enemies g6)) g6 in
  let g8 := set_asteroids (updateAsteroids H dt (asteroids g7)) g7 in
  let g9 := set_powerups (updatePowerUps H dt (powerups g8)) g8 in
  set_ship (decayEffects dt (ship g9)) g9.

(** The end of a frame: the test of the health that the frame started
    with. *)
Definition endFrame (g0 g : Game) : Game :=
  if Rleb (health g0) 0 && negb (gameOver g0)
  then set_running false (set_gameOver true g)
  else g.


(** An operation other than [restart]. *)
Definition noRestart (op : SessionOp) : Prop :=
  match op with OpRestart => False | _ => True end.


(** The effect timers are within what the pickups give. *)
Definition effectsOk (g : Game) : Prop :=
  0 <= shieldT (ship g) <= 4 /\ 0 <= rapidT (ship g) <= 5.

(** Timestamps that do not go back, from the recorded one on. *)
Fixpoint ascendingFrom (prev : option R) (ts : list R) : Prop :=
  match ts with
  | [] => True
  | t :: ts' =>
      match prev with Some p => p <= t | None => True end
      /\ ascendingFrom (Some t) ts'
  end.

(** What the loop of a bullet over the hostiles does to a hostile that
    the bullet overlaps. *)
Definition struck (ch : R) (e : Enemy) : Enemy :=
  if Rleb (e_hp e - 1) 0
  then mkEnemy (e_x e) (ch + 100) (e_vx e) (e_vy e) (e_r e) (e_hp e - 1) (e_type e)
  else mkEnemy (e_x e) (e_y e) (e_vx e) (e_vy e) (e_r e) (e_hp e - 1) (e_type e).

(** A hostile that the bullet overlaps and that has one hit point left,
    or less. *)
Definition killedBy (b : Bullet) (e : Enemy) : bool :=
  bulletHits b e && Rleb (e_hp e - 1) 0.


(** The updates of the bullets, and of the pickups, over the frames of
    elapsed times [ds]. *)
Definition updateBulletsAll (ds : list R) (bs : list Bullet) : list Bullet :=
  fold_left (fun bs d => updateBullets d bs) ds bs.

Definition updatePowerUpsAll (H : R) (ds : list R) (l : list PowerUp) : list PowerUp :=
  fold_left (fun l d => updatePowerUps H d l) ds l.

(** ** Pointer *)

(** [input.current]: whether the pointer is pressed, and the target. *)
Record Input := mkInput { pointerDown : bool; in_target : Vec }.

(** [useRef({ pointerDown: false, target: { x: 200, y: 300 } })] *)
Definition input0 : Input := mkInput false (mkVec 200 300).

(** A pointer event: [pointerdown] on the canvas, [pointermove] and
    [pointerup] on the window, with [e.clientX] and [e.clientY]. *)
Inductive PointerEvent :=
| PDown (clientX clientY : R)
| PMove (clientX clientY : R)
| PUp.

(** [getPos]: the position relative to the corner [(left, top)] of the
    canvas on the page. *)
Definition getPos (left top clientX clientY : R) : Vec :=
  mkVec (clientX - left) (clientY - top).

(** The handlers [down], [move] and [up]. *)
Definition onPointer (left top : R) (i : Input) (e : PointerEvent) : Input :=
  match e with
  | PDown x y => mkInput true (getPos left top x y)
  | PMove x y => if pointerDown i then mkInput (pointerDown i) (getPos left top x y) else i
  | PUp => mkInput false (in_target i)
  end.

Definition isMove (e : PointerEvent) : Prop :=
  match e with PMove _ _ => True | _ => False end.


(** The bullets of a volley of the ship [s], and the cooldown after it. *)
Definition volley (dpr : R) (s : Ship) : list Bullet :=
  mkBullet (s_x s) (s_y s - 14 * dpr) 0 (-900 * dpr) (4 * dpr) 2 "#00fff0"
  :: (if Rltb 0 (rapidT s)
      then [mkBullet (s_x s - 8 * dpr) (s_y s - 10 * dpr) (-200 * dpr) (-820 * dpr)
                     (4 * dpr) 2 "#ff00e6";
            mkBullet (s_x s + 8 * dpr) (s_y s - 10 * dpr) (200 * dpr) (-820 * dpr)
                     (4 * dpr) 2 "#ff00e6"]
      else []).

Definition fireRate (s : Ship) : R := if Rltb 0 (rapidT s) then 0.08 else 0.18.


(** * Properties *)

(** ** Comparisons *)

Lemma Rleb_true_iff (a b : R) : Rleb a b = true <-> a <= b.
Proof. unfold Rleb; destruct (Rle_dec a b); split; intros; auto; discriminate. Qed.

Lemma Rleb_false_iff (a b : R) : Rleb a b = false <-> b < a.
Proof.
  unfold Rleb; destruct (Rle_dec a b); split; intros; auto; try discriminate; lra.
Qed.

Lemma Rltb_true_iff (a b : R) : Rltb a b = true <-> a < b.
Proof. unfold Rltb; destruct (Rlt_dec a b); split; intros; auto; discriminate. Qed.

Lemma Rltb_false_iff (a b : R) : Rltb a b = false <-> b <= a.
Proof.
  unfold Rltb; destruct (Rlt_dec a b); split; intros; auto; try discriminate; lra.
Qed.

Lemma Rleb_true (a b : R) : a <= b -> Rleb a b = true.
Proof. apply Rleb_true_iff. Qed.

Lemma Rleb_false (a b : R) : b < a -> Rleb a b = false.
Proof. apply Rleb_false_iff. Qed.

Lemma Rltb_true (a b : R) : a < b -> Rltb a b = true.
Proof. apply Rltb_true_iff. Qed.

Lemma Rltb_false (a b : R) : b <= a -> Rltb a b = false.
Proof. apply Rltb_false_iff. Qed.

(** Decides the comparisons between numerals that are left in a goal. *)
Ltac cmp :=
  repeat first
    [ rewrite Rleb_true by lra | rewrite Rleb_false by lra
    | rewrite Rltb_true by lra | rewrite Rltb_false by lra ].

(** Replaces [Rmin] and [Rmax] by their case analyses. *)
Ltac minmax :=
  unfold Rmin, Rmax in *;
  repeat match goal with
         | |- context [Rle_dec ?a ?b] => destruct (Rle_dec a b)
         | H : context [Rle_dec ?a ?b] |- _ => destruct (Rle_dec a b)
         end.

Lemma clamp_bounds (v lo hi : R) : lo <= hi -> lo <= clamp v lo hi <= hi.
Proof. intros Hle; unfold clamp; minmax; lra. Qed.

Lemma clamp_id (v lo hi : R) : lo <= v <= hi -> clamp v lo hi = v.
Proof. intros Hv; unfold clamp; minmax; lra. Qed.

(** ** Collision test *)

(** C7.  [hit] answers true exactly when the squared distance of the
    centres is at most the squared sum of the radii; two circles whose
    centres are exactly the sum of the radii apart overlap; and the test
    does not depend on the order of the two circles. *)
Theorem hit_inclusive_symmetric (x1 y1 r1 x2 y2 r2 : R) :
  (hit x1 y1 r1 x2 y2 r2 = true
     <-> (x1 - x2) ^ 2 + (y1 - y2) ^ 2 <= (r1 + r2) ^ 2)
  /\ hit x1 y1 r1 (x1 + (r1 + r2)) y1 r2 = true
  /\ hit x1 y1 r1 x2 y2 r2 = hit x2 y2 r2 x1 y1 r1.
Proof.
  unfold hit; repeat split.
  - apply Rleb_true_iff.
  - apply Rleb_true_iff.
  - apply Rleb_true; nra.
  - replace ((x2 - x1) ^ 2 + (y2 - y1) ^ 2) with ((x1 - x2) ^ 2 + (y1 - y2) ^ 2) by ring.
    replace ((r2 + r1) ^ 2) with ((r1 + r2) ^ 2) by ring.
    reflexivity.
Qed.

(** ** Difficulty *)

Lemma difficulty_range (sc : R) : 0 <= sc -> 1 <= difficulty sc <= 6.
Proof. intros Hs; unfold difficulty; minmax; lra. Qed.

Lemma difficulty_mono (s1 s2 : R) : s1 <= s2 -> difficulty s1 <= difficulty s2.
Proof. intros Hs; unfold difficulty; minmax; lra. Qed.

Lemma level_below_400 (sc : R) : 0 <= sc < 400 -> level sc = 1%Z.
Proof.
  intros Hs. unfold level.
  rewrite (Zfloor_eq 0 (sc / 400)) by (simpl; lra).
  reflexivity.
Qed.

Lemma level_at_400 : level 400 = 2%Z.
Proof.
  unfold level. rewrite (Zfloor_eq 1 (400 / 400)) by (simpl; lra).
  reflexivity.
Qed.

Lemma interval_antitone (a d1 d2 : R) :
  0 <= a -> 1 <= d1 <= d2 -> a / Rmax 1 d2 <= a / Rmax 1 d1.
Proof.
  intros Ha Hd.
  rewrite !Rmax_right by lra.
  unfold Rdiv. apply Rmult_le_compat_l; [lra|].
  apply Rinv_le_contravar; lra.
Qed.

(** C8.  The difficulty is [min(6, 1 + score/400)]; for a score that is
    not negative it lies in [1, 6]; it does not decrease when the score
    grows.  The level is 1 for every score below 400 and 2 at 400, where
    the difficulty is 2 (it is 1 at score 0).  The intervals to the next
    hostile and to the next obstacle are the draws in [0.5, 1.2) and
    [0.8, 1.6) divided by the difficulty: they do not grow with the
    score, and at score 400 they are half of what they are at score 0,
    within [0.25, 0.6) and [0.4, 0.8). *)
Theorem difficulty_level_intervals :
  (forall sc, difficulty sc = Rmin 6 (1 + sc / 400))
  /\ (forall sc, 0 <= sc -> 1 <= difficulty sc <= 6)
  /\ (forall s1 s2, s1 <= s2 -> difficulty s1 <= difficulty s2)
  /\ (forall sc, 0 <= sc < 400 -> level sc = 1%Z)
  /\ level 400 = 2%Z
  /\ difficulty 0 = 1 /\ difficulty 400 = 2
  /\ (forall u s1 s2, 0 <= u -> 0 <= s1 <= s2 ->
        enemyInterval u (difficulty s2) <= enemyInterval u (difficulty s1)
        /\ asteroidInterval u (difficulty s2) <= asteroidInterval u (difficulty s1))
  /\ (forall u, 0 <= u < 1 ->
        enemyInterval u (difficulty 400) = enemyInterval u (difficulty 0) / 2
        /\ asteroidInterval u (difficulty 400) = asteroidInterval u (difficulty 0) / 2
        /\ 0.5 <= enemyInterval u (difficulty 0) < 1.2
        /\ 0.25 <= enemyInterval u (difficulty 400) < 0.6
        /\ 0.8 <= asteroidInterval u (difficulty 0) < 1.6
        /\ 0.4 <= asteroidInterval u (difficulty 400) < 0.8).
Proof.
  assert (H0 : difficulty 0 = 1) by (unfold difficulty; minmax; lra).
  assert (H4 : difficulty 400 = 2) by (unfold difficulty; minmax; lra).
  split; [reflexivity|].
  split; [exact difficulty_range|].
  split; [exact difficulty_mono|].
  split; [exact level_below_400|].
  split; [exact level_at_400|].
  split; [exact H0|]. split; [exact H4|].
  split.
  - intros u s1 s2 Hu Hs.
    assert (1 <= difficulty s1 <= difficulty s2).
    { split; [apply difficulty_range; lra | apply difficulty_mono; lra]. }
    unfold enemyInterval, asteroidInterval, rand_of.
    split; apply interval_antitone; auto; nra.
  - intros u Hu. rewrite H0, H4.
    unfold enemyInterval, asteroidInterval, rand_of.
    rewrite (Rmax_left 1 1) by lra. rewrite (Rmax_right 1 2) by lra.
    repeat split; lra.
Qed.

(** At the scores 100 and 800, for the draw 1/2. *)
Lemma difficulty_level_intervals_witness :
  1 <= difficulty 800 <= 6
  /\ difficulty 100 <= difficulty 800
  /\ level 100 = 1%Z
  /\ enemyInterval (1/2) (difficulty 800) <= enemyInterval (1/2) (difficulty 100)
  /\ 0.25 <= enemyInterval (1/2) (difficulty 400) < 0.6.
Proof.
  destruct difficulty_level_intervals
    as (_ & Hr & Hm & Hl & _ & _ & _ & Hi & Hb).
  split; [apply Hr; lra|].
  split; [apply Hm; lra|].
  split; [apply Hl; lra|].
  split; [apply (Hi (1/2) 100 800); lra|].
  apply (Hb (1/2)); lra.
Defined.

(** ** Session operations *)

(** C9.  After [restart], from any state: the score is 0, the health is
    100, the four pools are empty, the game is not over, the loop runs,
    and the shield and rapid-fire timers of the ship are 0. *)
Theorem restart_resets (g : Game) :
  score (restart g) = 0
  /\ health (restart g) = 100
  /\ bullets (restart g) = []
  /\ enemies (restart g) = []
  /\ asteroids (restart g) = []
  /\ powerups (restart g) = []
  /\ gameOver (restart g) = false
  /\ running (restart g) = true
  /\ shieldT (ship (restart g)) = 0
  /\ rapidT (ship (restart g)) = 0.
Proof. repeat split; reflexivity. Qed.

(** C10.  Collecting a pickup adds exactly 25 to the score, whatever its
    kind; a shield pickup sets the shield timer to 4, a rapid-fire pickup
    sets the rapid-fire timer to 5, a heal pickup sets the health to
    [min(100, health + 20)]; every other field of the session and of the
    ship is as before (the pickup sound is logged).  In the loop over the
    pickups, a pickup that the ship overlaps has this effect once, and
    its lifetime is set to 0. *)
Theorem applyPower_effect (kind : PowerKind) (g : Game) :
  applyPower kind g =
    mkGame (running g) (score g + 25)
           (match kind with heal => Rmin 100 (health g + 20) | _ => health g end)
           (gameOver g) (autofire g)
           (match kind with
            | shield => set_shieldT 4 (ship g)
            | rapid => set_rapidT 5 (ship g)
            | heal => ship g
            end)
           (bullets g) (enemies g) (asteroids g) (powerups g) (target g)
           (timers g) (lastTime g) (sfx g ++ [SfxPower]) (rng g)
  /\ shieldT (ship (applyPower shield g)) = 4
  /\ rapidT (ship (applyPower rapid g)) = 5
  /\ health (applyPower heal g) = Rmin 100 (health g + 20)
  /\ (forall p, hit (s_x (ship g)) (s_y (ship g)) (s_r (ship g) + 4)
                    (p_x p) (p_y p) (p_r p) = true ->
        shipVsPowerUps [p] g =
          ([mkPowerUp (p_x p) (p_y p) (p_vx p) (p_vy p) (p_r p) (p_kind p) 0],
           applyPower (p_kind p) g)).
Proof.
  repeat split; try reflexivity.
  - destruct kind; reflexivity.
  - intros p Hp. simpl. rewrite Hp. reflexivity.
Qed.

(** A heal pickup of radius 10 under the ship of the initial state. *)
Lemma applyPower_effect_witness :
  shipVsPowerUps [mkPowerUp 200 300 0 90 10 heal 8] (game0 (fun _ => 0)) =
    ([mkPowerUp 200 300 0 90 10 heal 0], applyPower heal (game0 (fun _ => 0))).
Proof.
  destruct (applyPower_effect heal (game0 (fun _ => 0))) as (_ & _ & _ & _ & H).
  apply (H (mkPowerUp 200 300 0 90 10 heal 8)).
  unfold hit; simpl. apply Rleb_true. lra.
Defined.

(** ** Health along a run *)

Lemma damage_healthOk (dmg : R) (g : Game) :
  0 <= dmg -> healthOk g -> healthOk (damage dmg g).
Proof.
  unfold healthOk, damage; intros Hd Hg.
  destruct (Rltb 0 (shieldT (ship g))); simpl; [lra|].
  minmax; lra.
Qed.

Lemma applyPower_healthOk (kind : PowerKind) (g : Game) :
  healthOk g -> healthOk (applyPower kind g).
Proof.
  unfold healthOk; intros Hg; destruct kind; simpl; try lra.
  minmax; lra.
Qed.

Lemma damage_ship (dmg : R) (g : Game) : ship (damage dmg g) = ship g.
Proof. unfold damage; destruct (Rltb 0 (shieldT (ship g))); reflexivity. Qed.

Lemma damage_lastTime (dmg : R) (g : Game) : lastTime (damage dmg g) = lastTime g.
Proof. unfold damage; destruct (Rltb 0 (shieldT (ship g))); reflexivity. Qed.

Lemma sameCore_refl (g : Game) : sameCore g g.
Proof. unfold sameCore; auto. Qed.

Lemma sameCore_trans (g1 g2 g3 : Game) :
  sameCore g1 g2 -> sameCore g2 g3 -> sameCore g1 g3.
Proof.
  unfold sameCore; intros (A1 & A2 & A3 & A4 & A5) (B1 & B2 & B3 & B4 & B5).
  repeat split; congruence.
Qed.

(** Splits the tests of a straight-line block and closes the cases. *)
Ltac split_ifs :=
  repeat match goal with
         | |- context [if ?c then _ else _] => destruct c; simpl
         | |- context [match ?k with shield => _ | _ => _ end] => destruct k; simpl
         | |- context [match ?k with drone => _ | _ => _ end] => destruct k; simpl
         | |- context [match ?o with Some _ => _ | None => _ end] => destruct o; simpl
         end.

Lemma spawnPowerUp_core (W dpr : R) (pos : option Vec) (g : Game) :
  sameCore g (spawnPowerUp W dpr pos g).
Proof.
  unfold sameCore, spawnPowerUp, pickKind, rand, random; simpl.
  split_ifs; auto.
Qed.

Lemma spawnEnemy_core (W H dpr d : R) (g : Game) :
  sameCore g (spawnEnemy W H dpr d g).
Proof.
  unfold sameCore, spawnEnemy, rand, random; simpl.
  split_ifs; auto.
Qed.

Lemma spawnAsteroid_core (W H dpr d : R) (g : Game) :
  sameCore g (spawnAsteroid W H dpr d g).
Proof. unfold sameCore, spawnAsteroid, rand, random; simpl; auto. Qed.

Lemma shooting_core (dpr : R) (auto : bool) (g : Game) :
  sameCore g (shooting dpr auto g).
Proof.
  unfold sameCore, shooting; simpl.
  destruct (auto && Rleb (t_shoot (timers g)) 0); simpl; auto.
  destruct (Rltb 0 (rapidT (ship g))); simpl; auto.
Qed.

Lemma spawning_core (W H dpr d : R) (g : Game) : sameCore g (spawning W H dpr d g).
Proof.
  unfold spawning.
  set (g1 := if Rleb (t_enemy (timers g)) 0 then _ else g).
  assert (H1 : sameCore g g1).
  { subst g1. destruct (Rleb (t_enemy (timers g)) 0); [|apply sameCore_refl].
    eapply sameCore_trans; [apply (spawnEnemy_core W H dpr d)|].
    unfold sameCore, random; simpl; auto. }
  set (g2 := if Rleb (t_asteroid (timers g1)) 0 then _ else g1).
  assert (H2 : sameCore g1 g2).
  { subst g2. destruct (Rleb (t_asteroid (timers g1)) 0); [|apply sameCore_refl].
    eapply sameCore_trans; [apply (spawnAsteroid_core W H dpr d)|].
    unfold sameCore, random; simpl; auto. }
  apply (sameCore_trans _ _ _ H1). apply (sameCore_trans _ _ _ H2).
  destruct (Rleb (t_power (timers g2)) 0); [|apply sameCore_refl].
  eapply sameCore_trans; [apply (spawnPowerUp_core W dpr None)|].
  unfold sameCore, rand, random; simpl; auto.
Qed.

Lemma bulletVsEnemies_core (cw ch dpr : R) (es : list Enemy) :
  forall b g, sameCore g (snd (bulletVsEnemies cw ch dpr b es g)).
Proof.
  induction es as [|e es IH]; intros b g; simpl; [apply sameCore_refl|].
  destruct (hit _ _ _ _ _ _).
  - destruct (Rleb (e_hp e - 1) 0).
    + match goal with
      | |- context [bulletVsEnemies cw ch dpr ?b' es ?g'] =>
          specialize (IH b' g'); destruct (bulletVsEnemies cw ch dpr b' es g') as [[b2 es2] g5]
      end.
      simpl in *. eapply sameCore_trans; [|exact IH].
      destruct (Rltb (rng g 0%nat) 0.04).
      * match goal with
        | |- sameCore g (play SfxBoom (spawnPowerUp cw dpr ?pos ?g2)) =>
            pose proof (spawnPowerUp_core cw dpr pos g2) as Hs
        end.
        unfold sameCore in *; simpl in *. tauto.
      * unfold sameCore; simpl; auto.
    + specialize (IH (mkBullet (b_x b) (b_y b) (b_vx b) (b_vy b) (b_r b) 0 (b_color b))
                     (play SfxHit g)).
      destruct (bulletVsEnemies cw ch dpr _ es (play SfxHit g)) as [[b2 es2] g5].
      simpl in *. eapply sameCore_trans; [|exact IH]. unfold sameCore; simpl; auto.
  - specialize (IH b g).
    destruct (bulletVsEnemies cw ch dpr b es g) as [[b2 es2] g5]. exact IH.
Qed.

Lemma bulletsVsEnemies_core (cw ch dpr : R) (bs : list Bullet) :
  forall es g, sameCore g (snd (bulletsVsEnemies cw ch dpr bs es g)).
Proof.
  induction bs as [|b bs IH]; intros es g; simpl; [apply sameCore_refl|].
  pose proof (bulletVsEnemies_core cw ch dpr es b g) as H1.
  destruct (bulletVsEnemies cw ch dpr b es g) as [[b1 es1] g1].
  specialize (IH es1 g1).
  destruct (bulletsVsEnemies cw ch dpr bs es1 g1) as [[bs2 es2] g2].
  simpl in *. eapply sameCore_trans; eauto.
Qed.

Lemma samePos_refl (g : Game) : samePos g g.
Proof. unfold samePos; auto. Qed.

Lemma samePos_trans (g1 g2 g3 : Game) :
  samePos g1 g2 -> samePos g2 g3 -> samePos g1 g3.
Proof.
  unfold samePos; intros (A1 & A2 & A3) (B1 & B2 & B3); repeat split; congruence.
Qed.

Lemma sameCore_samePos (g g' : Game) : sameCore g g' -> samePos g g'.
Proof. unfold sameCore, samePos; intros (_ & Hs & Hl & _); rewrite Hs; auto. Qed.

Lemma damage_samePos (dmg : R) (g : Game) : samePos g (damage dmg g).
Proof. unfold samePos; rewrite damage_ship, damage_lastTime; auto. Qed.

Lemma applyPower_samePos (kind : PowerKind) (g : Game) : samePos g (applyPower kind g).
Proof. unfold samePos; destruct kind; simpl; auto. Qed.

(** What [damage] and [applyPower] preserve, the three loops of the ship
    over the pools preserve. *)
Section ShipLoops.
Variable P : Game -> Prop.
Hypothesis P_damage : forall dmg g, 0 <= dmg -> P g -> P (damage dmg g).
Hypothesis P_power : forall kind g, P g -> P (applyPower kind g).

Lemma shipVsEnemies_preserves (H : R) (es : list Enemy) :
  forall g, P g -> P (snd (shipVsEnemies H es g)).
Proof.
  induction es as [|e es IH]; intros g Hg; simpl; [exact Hg|].
  destruct (hit _ _ _ _ _ _).
  - specialize (IH (damage 20 g) (P_damage 20 g ltac:(lra) Hg)).
    destruct (shipVsEnemies H es (damage 20 g)) as [es2 g2]; exact IH.
  - specialize (IH g Hg).
    destruct (shipVsEnemies H es g) as [es2 g2]; exact IH.
Qed.

Lemma shipVsAsteroids_preserves (H : R) (l : list Asteroid) :
  forall g, P g -> P (snd (shipVsAsteroids H l g)).
Proof.
  induction l as [|a l IH]; intros g Hg; simpl; [exact Hg|].
  destruct (hit _ _ _ _ _ _).
  - specialize (IH (damage 15 g) (P_damage 15 g ltac:(lra) Hg)).
    destruct (shipVsAsteroids H l (damage 15 g)) as [l2 g2]; exact IH.
  - specialize (IH g Hg).
    destruct (shipVsAsteroids H l g) as [l2 g2]; exact IH.
Qed.

Lemma shipVsPowerUps_preserves (l : list PowerUp) :
  forall g, P g -> P (snd (shipVsPowerUps l g)).
Proof.
  induction l as [|p l IH]; intros g Hg; simpl; [exact Hg|].
  destruct (hit _ _ _ _ _ _).
  - specialize (IH (applyPower (p_kind p) g) (P_power (p_kind p) g Hg)).
    destruct (shipVsPowerUps l (applyPower (p_kind p) g)) as [l2 g2]; exact IH.
  - specialize (IH g Hg).
    destruct (shipVsPowerUps l g) as [l2 g2]; exact IH.
Qed.

(** The same for the collisions of a frame, when [P] does not look at
    the pools, the score, the log or the stream of draws. *)
Hypothesis P_core : forall g g', sameCore g g' -> P g -> P g'.

Lemma collisions_preserves (W H dpr : R) (g : Game) :
  P g -> P (collisions W H dpr g).
Proof.
  intros Hg. unfold collisions.
  pose proof (bulletsVsEnemies_core W H dpr (bullets g) (enemies g) g) as Hc.
  destruct (bulletsVsEnemies W H dpr (bullets g) (enemies g) g) as [[bs es] g1].
  simpl in Hc.
  set (g2 := set_enemies es (set_bullets bs g1)).
  assert (H2 : P g2).
  { apply (P_core g); [|exact Hg]. exact Hc. }
  pose proof (shipVsEnemies_preserves H (enemies g2) g2 H2) as H3.
  destruct (shipVsEnemies H (enemies g2) g2) as [es' g3]; simpl in H3.
  set (g4 := set_enemies es' g3).
  assert (H4 : P g4).
  { apply (P_core g3); [|exact H3]. unfold sameCore; simpl; auto. }
  pose proof (shipVsAsteroids_preserves H (asteroids g4) g4 H4) as H5.
  destruct (shipVsAsteroids H (asteroids g4) g4) as [l g5]; simpl in H5.
  set (g6 := set_asteroids l g5).
  assert (H6 : P g6).
  { apply (P_core g5); [|exact H5]. unfold sameCore; simpl; auto. }
  pose proof (shipVsPowerUps_preserves (powerups g6) g6 H6) as H7.
  destruct (shipVsPowerUps (powerups g6) g6) as [ps g7]; simpl in H7.
  apply (P_core g7); [|exact H7]. unfold sameCore; simpl; auto.
Qed.
End ShipLoops.

Lemma collisions_healthOk (W H dpr : R) (g : Game) :
  healthOk g -> healthOk (collisions W H dpr g).
Proof.
  apply collisions_preserves.
  - exact damage_healthOk.
  - exact applyPower_healthOk.
  - unfold healthOk, sameCore; intros g1 g2 (Hh & _) H1; rewrite Hh; exact H1.
Qed.

Lemma collisions_samePos (W H dpr : R) (g : Game) : samePos g (collisions W H dpr g).
Proof.
  apply (collisions_preserves (samePos g)).
  - intros dmg g1 _ H1. eapply samePos_trans; [exact H1 | apply damage_samePos].
  - intros kind g1 H1. eapply samePos_trans; [exact H1 | apply applyPower_samePos].
  - intros g1 g2 Hc H1. eapply samePos_trans; [exact H1 | apply sameCore_samePos; exact Hc].
  - apply samePos_refl.
Qed.

(** ** Damage under the shield *)

(** With the shield up, the loops of the ship over the hostiles and over
    the obstacles leave the health and the ship as they are. *)
Lemma shielded_passes (H : R) (g : Game) :
  0 < shieldT (ship g) ->
  (forall es, health (snd (shipVsEnemies H es g)) = health g)
  /\ (forall l, health (snd (shipVsAsteroids H l g)) = health g).
Proof.
  intros Hs.
  assert (Hd : forall dmg g', 0 <= dmg ->
             health g' = health g /\ ship g' = ship g ->
             health (damage dmg g') = health g /\ ship (damage dmg g') = ship g).
  { intros dmg g' _ [Hh Hsh]. unfold damage. rewrite Hsh, Rltb_true by exact Hs.
    simpl. auto. }
  split.
  - intros es.
    apply (shipVsEnemies_preserves (fun g' => health g' = health g /\ ship g' = ship g) Hd H es g).
    auto.
  - intros l.
    apply (shipVsAsteroids_preserves (fun g' => health g' = health g /\ ship g' = ship g) Hd H l g).
    auto.
Qed.

(** C2.  While the shield timer is positive, [damage] leaves the health as
    it is, for every amount, and still plays the hit sound: the state is
    the one before with that sound logged; so the collisions of the ship
    with the hostiles and the obstacles of a frame leave the health as it
    is.  With the shield timer at 2, after [damage 15] the health is
    unchanged, and the shield timer is still positive after the decay of
    one frame, whose elapsed time is at most 0.032. *)
Theorem damage_shielded (dmg : R) (g : Game) :
  0 < shieldT (ship g) ->
  health (damage dmg g) = health g
  /\ sfx (damage dmg g) = sfx g ++ [SfxHit]
  /\ damage dmg g = play SfxHit g
  /\ (forall H es l,
        health (snd (shipVsEnemies H es g)) = health g
        /\ health (snd (shipVsAsteroids H l g)) = health g)
  /\ (shieldT (ship g) = 2 ->
      health (damage 15 g) = health g
      /\ (forall dt, dt <= 0.032 ->
            0 < shieldT (decayEffects dt (ship (damage 15 g))))
      /\ (forall last t,
            0 < shieldT (decayEffects (frame_dt last t) (ship (damage 15 g))))).
Proof.
  intros Hs.
  assert (Hd : forall d, damage d g = play SfxHit g).
  { intros d. unfold damage. rewrite Rltb_true by exact Hs. reflexivity. }
  rewrite !Hd.
  split; [reflexivity|]. split; [reflexivity|]. split; [reflexivity|]. split.
  - intros H es l. destruct (shielded_passes H g Hs) as [He Ha]. split; auto.
  - intros H2. split; [reflexivity|]. split.
    + intros dt Hdt. simpl. rewrite H2. minmax; lra.
    + intros last t. simpl. rewrite H2.
      pose proof (Rmin_l 0.032 ((t - match last with Some p => p | None => t end) / 1000)).
      unfold frame_dt. minmax; lra.
Qed.

(** The initial state with the shield timer at 2 and an elapsed time of
    16 ms. *)
Lemma damage_shielded_witness :
  let g := set_ship (set_shieldT 2 ship0) (game0 (fun _ => 0)) in
  health (damage 15 g) = 100
  /\ sfx (damage 15 g) = [SfxHit]
  /\ 0 < shieldT (decayEffects 0.016 (ship (damage 15 g))).
Proof.
  intros g.
  assert (Hs : 0 < shieldT (ship g)) by (simpl; lra).
  destruct (damage_shielded 15 g Hs) as (Hh & Hx & _ & _ & Hsc).
  destruct (Hsc eq_refl) as (_ & Hdec & _).
  split; [rewrite Hh; reflexivity|].
  split; [rewrite Hx; reflexivity|].
  apply Hdec; lra.
Defined.

(** The state that [loop] hands to the collisions, when it runs. *)
Lemma loop_running (W H dpr t : R) (g : Game) :
  running g = true ->
  exists g10,
    health g10 = health g
    /\ lastTime g10 = Some t
    /\ s_x (ship g10) = s_x (moveShip W H dpr (frame_dt (lastTime g) t) (target g) (ship g))
    /\ s_y (ship g10) = s_y (moveShip W H dpr (frame_dt (lastTime g) t) (target g) (ship g))
    /\ loop W H dpr t g =
         if Rleb (health g) 0 && negb (gameOver g)
         then set_running false (set_gameOver true (collisions W H dpr g10))
         else collisions W H dpr g10.
Proof.
  intros Hrun. unfold loop. rewrite Hrun. simpl negb. cbv iota.
  set (dt := frame_dt (lastTime g) t).
  set (g3 := set_timers _ (set_ship _ (set_lastTime (Some t) g))).
  set (g4 := shooting dpr (autofire g) g3).
  set (g5 := spawning W H dpr (difficulty (score g)) g4).
  pose proof (shooting_core dpr (autofire g) g3) as (A1 & A2 & A3 & _).
  pose proof (spawning_core W H dpr (difficulty (score g)) g4) as (B1 & B2 & B3 & _).
  fold g4 in A1, A2, A3. fold g5 in B1, B2, B3.
  match goal with
  | |- context [collisions W H dpr ?g10] => exists g10
  end.
  simpl. rewrite B1, B2, B3, A1, A2, A3. simpl.
  repeat split; auto.
Qed.

Lemma loop_healthOk (W H dpr t : R) (g : Game) :
  healthOk g -> healthOk (loop W H dpr t g).
Proof.
  intros Hg. destruct (running g) eqn:Hrun.
  - destruct (loop_running W H dpr t g Hrun) as (g10 & Hh & _ & _ & _ & Hloop).
    rewrite Hloop.
    assert (H10 : healthOk g10) by (unfold healthOk; rewrite Hh; exact Hg).
    pose proof (collisions_healthOk W H dpr g10 H10) as Hc.
    destruct (Rleb (health g) 0 && negb (gameOver g)); exact Hc.
  - unfold loop. rewrite Hrun. exact Hg.
Qed.

(** ** Elapsed time *)

Lemma loop_lastTime (W H dpr t : R) (g : Game) :
  lastTime (loop W H dpr t g) = Some t.
Proof.
  destruct (running g) eqn:Hrun.
  - destruct (loop_running W H dpr t g Hrun) as (g10 & _ & Hl & _ & _ & Hloop).
    destruct (collisions_samePos W H dpr g10) as (_ & _ & Cl).
    assert (Hs : lastTime (loop W H dpr t g) = lastTime (collisions W H dpr g10)).
    { rewrite Hloop. destruct (Rleb (health g) 0 && negb (gameOver g)); reflexivity. }
    rewrite Hs, Cl. exact Hl.
  - unfold loop. rewrite Hrun. reflexivity.
Qed.

Lemma loop_ship_pos (W H dpr t : R) (g : Game) :
  running g = true ->
  s_x (ship (loop W H dpr t g))
    = s_x (moveShip W H dpr (frame_dt (lastTime g) t) (target g) (ship g))
  /\ s_y (ship (loop W H dpr t g))
    = s_y (moveShip W H dpr (frame_dt (lastTime g) t) (target g) (ship g)).
Proof.
  intros Hrun.
  destruct (loop_running W H dpr t g Hrun) as (g10 & _ & _ & Hx & Hy & Hloop).
  destruct (collisions_samePos W H dpr g10) as (Cx & Cy & _).
  assert (Hs : ship (loop W H dpr t g) = ship (collisions W H dpr g10)).
  { rewrite Hloop. destruct (Rleb (health g) 0 && negb (gameOver g)); reflexivity. }
  rewrite Hs, Cx, Cy. split; assumption.
Qed.

(** C4.  The elapsed time of a frame is never more than 0.032 s, whatever
    the real elapsed time; when the timestamp is not before the previous
    one it is not negative, it is the real elapsed time up to 32 ms and
    exactly 0.032 s beyond; on the first frame, when no timestamp has
    been recorded, it is 0.  Every call of [loop] records its timestamp,
    and a frame that runs moves the ship by this elapsed time. *)
Theorem frame_dt_clamped (t : R) :
  frame_dt None t = 0
  /\ (forall last, frame_dt last t <= 0.032)
  /\ (forall prev, prev <= t ->
        0 <= frame_dt (Some prev) t <= 0.032
        /\ (t - prev <= 32 -> frame_dt (Some prev) t = (t - prev) / 1000)
        /\ (32 <= t - prev -> frame_dt (Some prev) t = 0.032))
  /\ (forall W H dpr g, lastTime (loop W H dpr t g) = Some t)
  /\ (forall W H dpr g, running g = true ->
        s_x (ship (loop W H dpr t g))
          = s_x (moveShip W H dpr (frame_dt (lastTime g) t) (target g) (ship g))
        /\ s_y (ship (loop W H dpr t g))
          = s_y (moveShip W H dpr (frame_dt (lastTime g) t) (target g) (ship g))).
Proof.
  split; [|split; [|split; [|split]]].
  - unfold frame_dt. replace ((t - t) / 1000) with 0 by lra. minmax; lra.
  - intros last; unfold frame_dt; apply Rmin_l.
  - intros prev Hp. unfold frame_dt. repeat split; minmax; lra.
  - intros W H dpr g. apply loop_lastTime.
  - intros W H dpr g. apply loop_ship_pos.
Qed.

(** A frame 16 ms after the previous one lasts 0.016 s; a frame 5 s after
    it lasts 0.032 s. *)
Lemma frame_dt_clamped_witness :
  0 <= frame_dt (Some 1000) 1016 <= 0.032
  /\ frame_dt (Some 1000) 1016 = (1016 - 1000) / 1000
  /\ frame_dt (Some 1000) 6000 = 0.032.
Proof.
  destruct (frame_dt_clamped 1016) as (_ & _ & H16 & _).
  destruct (frame_dt_clamped 6000) as (_ & _ & H5 & _).
  destruct (H16 1000 ltac:(lra)) as (Hb & Heq & _).
  destruct (H5 1000 ltac:(lra)) as (_ & _ & Hc).
  split; [exact Hb|]. split; [apply Heq; lra | apply Hc; lra].
Defined.

Lemma runOps_healthOk (ops : list SessionOp) :
  forall g, healthOk g -> Forall opOk ops -> healthOk (runOps ops g).
Proof.
  unfold runOps.
  induction ops as [|op ops IH]; intros g Hg Hops; simpl; [exact Hg|].
  inversion Hops as [|op' ops' Hop Hrest]; subst.
  apply IH; [|exact Hrest].
  destruct op as [dmg | kind | | W H dpr t]; simpl in *.
  - apply damage_healthOk; assumption.
  - apply applyPower_healthOk; assumption.
  - unfold healthOk; simpl; lra.
  - apply loop_healthOk; assumption.
Qed.

(** C1.  Without a shield [damage] sets the health to
    [max(0, health - dmg)], a heal pickup sets it to
    [min(100, health + 20)], [restart] sets it to 100.  Along every run of
    frames, damages, pickups and restarts, from a state whose health is
    within [0, 100] (such as the initial one, where it is 100), the
    health stays within [0, 100]; the amounts of damage are not negative. *)
Theorem health_stays_in_range :
  (forall dmg g, shieldT (ship g) <= 0 ->
     health (damage dmg g) = Rmax 0 (health g - dmg))
  /\ (forall g, health (applyPower heal g) = Rmin 100 (health g + 20))
  /\ (forall g, health (restart g) = 100)
  /\ (forall ops g, healthOk g -> Forall opOk ops ->
        0 <= health (runOps ops g) <= 100)
  /\ (forall ops draws, Forall opOk ops ->
        0 <= health (runOps ops (game0 draws)) <= 100).
Proof.
  split; [|split; [|split; [|split]]].
  - intros dmg g Hs. unfold damage. rewrite Rltb_false by exact Hs. reflexivity.
  - reflexivity.
  - reflexivity.
  - intros ops g Hg Hops. exact (runOps_healthOk ops g Hg Hops).
  - intros ops draws Hops. apply (runOps_healthOk ops); [|exact Hops].
    unfold healthOk; simpl; lra.
Qed.

(** Two hits, a heal, a frame, a restart and a hit of 120 from the
    initial state. *)
Lemma health_stays_in_range_witness :
  let ops := [OpDamage 20; OpDamage 15; OpPower heal; OpFrame 800 600 1 16;
              OpRestart; OpDamage 120] in
  Forall opOk ops
  /\ 0 <= health (runOps ops (game0 (fun _ => 0))) <= 100
  /\ health (damage 15 (game0 (fun _ => 0))) = Rmax 0 (100 - 15).
Proof.
  intros ops.
  assert (Hops : Forall opOk ops) by (repeat constructor; simpl; lra).
  destruct health_stays_in_range as (Hd & _ & _ & _ & Hrun).
  split; [exact Hops|]. split; [exact (Hrun ops (fun _ => 0) Hops)|].
  apply (Hd 15 (game0 (fun _ => 0))). simpl; lra.
Defined.

(** ** Moving the ship *)

Lemma hypot_nonneg (a b : R) : 0 <= hypot a b.
Proof. unfold hypot; apply sqrt_pos. Qed.

Lemma hypot_sqr (a b : R) : hypot a b * hypot a b = a * a + b * b.
Proof. unfold hypot; apply sqrt_sqrt; nra. Qed.

Lemma hypot_le (a b m : R) : 0 <= m -> a * a + b * b <= m * m -> hypot a b <= m.
Proof.
  intros Hm Hs. unfold hypot.
  rewrite <- (sqrt_square m Hm). apply sqrt_le_1_alt. exact Hs.
Qed.

Lemma hypot_zero (a b : R) : hypot a b = 0 -> a = 0 /\ b = 0.
Proof.
  intros Hz. pose proof (hypot_sqr a b) as Hs. rewrite Hz in Hs.
  split; nra.
Qed.

Lemma clamp_closer (v x lo hi : R) :
  lo <= x <= hi ->
  (clamp v lo hi - x) * (clamp v lo hi - x) <= (v - x) * (v - x).
Proof. intros Hx; unfold clamp; minmax; nra. Qed.

(** The move before the clamp is at most [speed * dt * dpr] long. *)
Lemma moveToward_length (dpr dt : R) (tg : Vec) (s : Ship) :
  0 <= s_speed s * dt * dpr ->
  (fst (moveToward dpr dt tg s) - s_x s) * (fst (moveToward dpr dt tg s) - s_x s)
  + (snd (moveToward dpr dt tg s) - s_y s) * (snd (moveToward dpr dt tg s) - s_y s)
  <= (s_speed s * dt * dpr) * (s_speed s * dt * dpr).
Proof.
  intros Hm. unfold moveToward; simpl.
  set (dx := v_x tg * dpr - s_x s). set (dy := v_y tg * dpr - s_y s).
  set (m := s_speed s * dt * dpr) in *.
  pose proof (hypot_nonneg dx dy) as Hd0.
  pose proof (hypot_sqr dx dy) as Hsq.
  unfold orOne. destruct (Req_dec_T (hypot dx dy) 0) as [Hz | Hnz].
  - destruct (hypot_zero dx dy Hz) as [Hx Hy]. rewrite Hx, Hy.
    replace (s_x s + 0 * Rmin 1 (m / 1) - s_x s) with 0 by ring.
    replace (s_y s + 0 * Rmin 1 (m / 1) - s_y s) with 0 by ring.
    nra.
  - set (d := hypot dx dy) in *.
    assert (Hd : 0 < d) by lra.
    assert (Hq : 0 <= m / d).
    { unfold Rdiv. apply Rmult_le_pos; [lra|]. left; apply Rinv_0_lt_compat; lra. }
    assert (Hqd : m / d * d = m) by (field; lra).
    set (st := Rmin 1 (m / d)).
    assert (Hst : 0 <= st <= m / d) by (subst st; minmax; lra).
    assert (Hsd : 0 <= st * d <= m) by nra.
    replace ((s_x s + dx * st - s_x s) * (s_x s + dx * st - s_x s)
             + (s_y s + dy * st - s_y s) * (s_y s + dy * st - s_y s))
      with ((st * d) * (st * d)) by (rewrite <- ?Rmult_assoc; nra).
    nra.
Qed.

Lemma moveShip_pos (W H dpr dt : R) (tg : Vec) (s : Ship) :
  s_x (moveShip W H dpr dt tg s)
    = clamp (fst (moveToward dpr dt tg s)) (20 * dpr) (W - 20 * dpr)
  /\ s_y (moveShip W H dpr dt tg s)
    = clamp (snd (moveToward dpr dt tg s)) (20 * dpr) (H - 20 * dpr).
Proof. unfold moveShip; destruct (moveToward dpr dt tg s); split; reflexivity. Qed.

(** The ship of the initial state at (200, 300), a canvas of 400 x 300 at
    pixel ratio 1, the first frame (elapsed time 0), the initial target:
    the clamp moves the ship up to the margin, to y = 280. *)
Lemma moveShip_first_frame :
  s_x (moveShip 400 300 1 0 (mkVec 200 300) ship0) = 200
  /\ s_y (moveShip 400 300 1 0 (mkVec 200 300) ship0) = 280.
Proof.
  destruct (moveShip_pos 400 300 1 0 (mkVec 200 300) ship0) as [Hx Hy].
  rewrite Hx, Hy. unfold moveToward; simpl.
  replace (200 * 1 - 200) with 0 by lra. replace (300 * 1 - 300) with 0 by lra.
  rewrite !Rmult_0_l. unfold clamp. split; minmax; lra.
Qed.

(** C5, as stated, fails: on that first frame the hypotheses hold, the
    ship moves from y = 300 to y = 280, and [speed * dt * dpr] is 0; so the
    bound on the distance does not hold for every ship, target and
    playfield. *)
Lemma moveShip_distance_counterexample :
  (0 <= 0 /\ 40 * 1 <= 400 /\ 40 * 1 <= 300
   /\ s_x (moveShip 400 300 1 0 (mkVec 200 300) ship0) = 200
   /\ s_y (moveShip 400 300 1 0 (mkVec 200 300) ship0) = 280
   /\ ~ hypot (s_x (moveShip 400 300 1 0 (mkVec 200 300) ship0) - s_x ship0)
              (s_y (moveShip 400 300 1 0 (mkVec 200 300) ship0) - s_y ship0)
        <= s_speed ship0 * 0 * 1)
  /\ ~ (forall W H dpr dt tg s,
         0 <= dt -> 40 * dpr <= W -> 40 * dpr <= H ->
         (20 * dpr <= s_x (moveShip W H dpr dt tg s) <= W - 20 * dpr
          /\ 20 * dpr <= s_y (moveShip W H dpr dt tg s) <= H - 20 * dpr)
         /\ hypot (s_x (moveShip W H dpr dt tg s) - s_x s)
                  (s_y (moveShip W H dpr dt tg s) - s_y s)
            <= s_speed s * dt * dpr).
Proof.
  destruct moveShip_first_frame as [Hx Hy].
  assert (Hfar : ~ hypot (s_x (moveShip 400 300 1 0 (mkVec 200 300) ship0) - s_x ship0)
                         (s_y (moveShip 400 300 1 0 (mkVec 200 300) ship0) - s_y ship0)
                   <= s_speed ship0 * 0 * 1).
  { rewrite Hx, Hy. simpl. intros Hd.
    pose proof (hypot_nonneg (200 - 200) (280 - 300)) as H0.
    destruct (hypot_zero (200 - 200) (280 - 300)) as [_ Hz]; lra. }
  split.
  - repeat split; try lra; assumption.
  - intros Hall. apply Hfar.
    apply (Hall 400 300 1 0 (mkVec 200 300) ship0); lra.
Qed.

(** C5, amended.  On a playfield with [W >= 40 dpr] and [H >= 40 dpr], for
    every elapsed time and target, the ship is within the margins after
    the move step, and so after a frame that runs.  When
    [speed * dt * dpr] is not negative, the move toward the target is at
    most that long; and when the ship starts within the margins, so is
    the distance between its position before the step and its position
    after the clamp. *)
Theorem moveShip_within_margins (W H dpr dt : R) (tg : Vec) (s : Ship) :
  40 * dpr <= W -> 40 * dpr <= H ->
  (20 * dpr <= s_x (moveShip W H dpr dt tg s) <= W - 20 * dpr
   /\ 20 * dpr <= s_y (moveShip W H dpr dt tg s) <= H - 20 * dpr)
  /\ (forall t g, running g = true ->
        20 * dpr <= s_x (ship (loop W H dpr t g)) <= W - 20 * dpr
        /\ 20 * dpr <= s_y (ship (loop W H dpr t g)) <= H - 20 * dpr)
  /\ (0 <= dt -> 0 <= dpr -> 0 <= s_speed s ->
        hypot (fst (moveToward dpr dt tg s) - s_x s)
              (snd (moveToward dpr dt tg s) - s_y s)
          <= s_speed s * dt * dpr
        /\ (20 * dpr <= s_x s <= W - 20 * dpr ->
            20 * dpr <= s_y s <= H - 20 * dpr ->
            hypot (s_x (moveShip W H dpr dt tg s) - s_x s)
                  (s_y (moveShip W H dpr dt tg s) - s_y s)
              <= s_speed s * dt * dpr)).
Proof.
  intros HW HH.
  assert (Hmargin : forall dt' tg' s',
            20 * dpr <= s_x (moveShip W H dpr dt' tg' s') <= W - 20 * dpr
            /\ 20 * dpr <= s_y (moveShip W H dpr dt' tg' s') <= H - 20 * dpr).
  { intros dt' tg' s'. destruct (moveShip_pos W H dpr dt' tg' s') as [Hx Hy].
    rewrite Hx, Hy. split; apply clamp_bounds; lra. }
  split; [apply Hmargin|]. split.
  - intros t g Hrun.
    destruct (loop_ship_pos W H dpr t g Hrun) as [Sx Sy].
    rewrite Sx, Sy. apply Hmargin.
  - intros Hdt Hdpr Hsp.
    assert (Hm : 0 <= s_speed s * dt * dpr).
    { apply Rmult_le_pos; [apply Rmult_le_pos|]; assumption. }
    pose proof (moveToward_length dpr dt tg s Hm) as Hlen.
    split; [apply hypot_le; assumption|].
    intros Hx Hy.
    destruct (moveShip_pos W H dpr dt tg s) as [Ex Ey]. rewrite Ex, Ey.
    apply hypot_le; [exact Hm|].
    pose proof (clamp_closer (fst (moveToward dpr dt tg s)) (s_x s) _ _ Hx).
    pose proof (clamp_closer (snd (moveToward dpr dt tg s)) (s_y s) _ _ Hy).
    lra.
Qed.

(** The ship of the initial state on a canvas of 800 x 600 at pixel ratio
    1, a frame of 16 ms, the target at (500, 300): the ship moves by at
    most 420 * 0.016 = 6.72. *)
Lemma moveShip_within_margins_witness :
  let s' := moveShip 800 600 1 0.016 (mkVec 500 300) ship0 in
  (20 * 1 <= s_x s' <= 800 - 20 * 1 /\ 20 * 1 <= s_y s' <= 600 - 20 * 1)
  /\ hypot (s_x s' - 200) (s_y s' - 300) <= 420 * 0.016 * 1.
Proof.
  intros s'.
  destruct (moveShip_within_margins 800 600 1 0.016 (mkVec 500 300) ship0)
    as (Hm & _ & Hd); try lra.
  split; [exact Hm|].
  destruct Hd as [_ Hd]; simpl; try lra.
  apply Hd; simpl; lra.
Defined.

(** ** The kind of a pickup *)

Lemma length_filter_pairs {A B : Type} (f : A -> bool) (h : B -> bool) (a : A) (l : list B) :
  length (filter (fun p => f (fst p) && h (snd p)) (map (pair a) l))
  = if f a then length (filter h l) else 0%nat.
Proof.
  induction l as [|b l IH]; simpl.
  - destruct (f a); reflexivity.
  - destruct (f a); simpl in *; [destruct (h b); simpl; rewrite IH; reflexivity | exact IH].
Qed.

Lemma length_filter_prod {A B : Type} (f : A -> bool) (h : B -> bool)
      (l1 : list A) (l2 : list B) :
  length (filter (fun p => f (fst p) && h (snd p)) (list_prod l1 l2))
  = (length (filter f l1) * length (filter h l2))%nat.
Proof.
  induction l1 as [|a l1 IH]; simpl; [reflexivity|].
  rewrite filter_app, length_app, IH, length_filter_pairs.
  destruct (f a); simpl; lia.
Qed.

Lemma length_filter_negb {A : Type} (f : A -> bool) (l : list A) :
  (length (filter f l) + length (filter (fun x => negb (f x)) l) = length l)%nat.
Proof.
  induction l as [|a l IH]; simpl; [reflexivity|].
  destruct (f a); simpl; lia.
Qed.

Lemma count_below (c N : nat) :
  length (filter (fun k => k <? c)%nat (seq 0 N)) = Nat.min c N.
Proof.
  induction N as [|N IH]; [rewrite Nat.min_0_r; reflexivity|].
  rewrite seq_S, filter_app, length_app, IH. simpl.
  destruct (Nat.ltb_spec N c); simpl; lia.
Qed.

(** On the grid of resolution [N], the number of values below [c / N]. *)
Lemma grid_below (N c : nat) (x : R) :
  (forall k, Rltb (INR k / INR N) x = (k <? c)%nat) ->
  length (filter (fun u => Rltb u x) (grid N)) = Nat.min c N.
Proof.
  intros Hx. unfold grid.
  rewrite <- (count_below c N).
  induction (seq 0 N) as [|k l IH]; simpl; [reflexivity|].
  rewrite Hx. destruct (k <? c)%nat; simpl; rewrite IH; reflexivity.
Qed.

Lemma grid_length (N : nat) : length (grid N) = N.
Proof. unfold grid; rewrite length_map, length_seq; reflexivity. Qed.

(** At a resolution [5 M], the thresholds 0.4 and 0.6 are the grid values
    of indices [2 M] and [3 M]. *)
Lemma threshold_04 (M k : nat) :
  (0 < M)%nat -> Rltb (INR k / INR (5 * M)) 0.4 = (k <? 2 * M)%nat.
Proof.
  intros HM. assert (HR : 0 < INR M) by (apply lt_0_INR; exact HM).
  rewrite mult_INR.
  destruct (Nat.ltb_spec k (2 * M)) as [Hlt | Hge].
  - apply Rltb_true. apply lt_INR in Hlt. rewrite mult_INR in Hlt. simpl in Hlt.
    apply (Rmult_lt_reg_r (INR 5 * INR M)); [simpl; lra|].
    unfold Rdiv. rewrite Rmult_assoc, Rinv_l by (simpl; lra). simpl; lra.
  - apply Rltb_false. apply le_INR in Hge. rewrite mult_INR in Hge. simpl in Hge.
    apply (Rmult_le_reg_r (INR 5 * INR M)); [simpl; lra|].
    unfold Rdiv. rewrite Rmult_assoc, Rinv_l by (simpl; lra). simpl; lra.
Qed.

Lemma threshold_06 (M k : nat) :
  (0 < M)%nat -> Rltb (INR k / INR (5 * M)) 0.6 = (k <? 3 * M)%nat.
Proof.
  intros HM. assert (HR : 0 < INR M) by (apply lt_0_INR; exact HM).
  rewrite mult_INR.
  destruct (Nat.ltb_spec k (3 * M)) as [Hlt | Hge].
  - apply Rltb_true. apply lt_INR in Hlt. rewrite mult_INR in Hlt. simpl in Hlt.
    apply (Rmult_lt_reg_r (INR 5 * INR M)); [simpl; lra|].
    unfold Rdiv. rewrite Rmult_assoc, Rinv_l by (simpl; lra). simpl; lra.
  - apply Rltb_false. apply le_INR in Hge. rewrite mult_INR in Hge. simpl in Hge.
    apply (Rmult_le_reg_r (INR 5 * INR M)); [simpl; lra|].
    unfold Rdiv. rewrite Rmult_assoc, Rinv_l by (simpl; lra). simpl; lra.
Qed.

Lemma length_filter_true {A : Type} (l : list A) :
  length (filter (fun _ => true) l) = length l.
Proof. induction l as [|a l IH]; simpl; [reflexivity | rewrite IH; reflexivity]. Qed.

Lemma kindOfDraws_spec (u1 u2 : R) :
  kindOfDraws u1 u2
  = if Rltb u1 0.4 then shield else if Rltb u2 0.6 then heal else rapid.
Proof.
  unfold kindOfDraws, pickKind, random; simpl.
  destruct (Rltb u1 0.4); [reflexivity|]. destruct (Rltb u2 0.6); reflexivity.
Qed.

Lemma pickKind_kindOfDraws (g : Game) :
  fst (pickKind g) = kindOfDraws (rng g 0%nat) (rng g 1%nat).
Proof.
  rewrite kindOfDraws_spec. unfold pickKind, random; simpl.
  destruct (Rltb (rng g 0%nat) 0.4); [reflexivity|].
  destruct (Rltb (rng g 1%nat) 0.6); reflexivity.
Qed.

Lemma kindCount_prod (N : nat) (k : PowerKind) (f h : R -> bool) :
  (forall u v, kind_eqb (kindOfDraws u v) k = f u && h v) ->
  kindCount N k
  = (length (filter f (grid N)) * length (filter h (grid N)))%nat.
Proof.
  intros Hk. unfold kindCount. rewrite <- length_filter_prod.
  f_equal. apply filter_ext. intros [u v]; simpl. apply Hk.
Qed.

(** The number of pairs of draws for each kind, at the resolution [5 M]. *)
Lemma kindCount_grid (M : nat) :
  (0 < M)%nat ->
  kindCount (5 * M) shield = (2 * M * (5 * M))%nat
  /\ kindCount (5 * M) heal = (3 * M * (3 * M))%nat
  /\ kindCount (5 * M) rapid = (3 * M * (2 * M))%nat.
Proof.
  intros HM.
  assert (H4 : length (filter (fun u => Rltb u 0.4) (grid (5 * M))) = (2 * M)%nat).
  { rewrite (grid_below (5 * M) (2 * M)); [lia|].
    intros k; apply threshold_04; exact HM. }
  assert (H6 : length (filter (fun u => Rltb u 0.6) (grid (5 * M))) = (3 * M)%nat).
  { rewrite (grid_below (5 * M) (3 * M)); [lia|].
    intros k; apply threshold_06; exact HM. }
  pose proof (length_filter_negb (fun u => Rltb u 0.4) (grid (5 * M))) as N4.
  pose proof (length_filter_negb (fun u => Rltb u 0.6) (grid (5 * M))) as N6.
  rewrite grid_length in N4, N6. rewrite H4 in N4. rewrite H6 in N6.
  split; [|split].
  - rewrite (kindCount_prod _ _ (fun u => Rltb u 0.4) (fun _ => true)).
    + rewrite H4, length_filter_true, grid_length. reflexivity.
    + intros u v. rewrite kindOfDraws_spec.
      destruct (Rltb u 0.4); [reflexivity|]. destruct (Rltb v 0.6); reflexivity.
  - rewrite (kindCount_prod _ _ (fun u => negb (Rltb u 0.4)) (fun v => Rltb v 0.6)).
    + rewrite H6. f_equal. lia.
    + intros u v. rewrite kindOfDraws_spec.
      destruct (Rltb u 0.4); [reflexivity|]. destruct (Rltb v 0.6); reflexivity.
  - rewrite (kindCount_prod _ _ (fun u => negb (Rltb u 0.4)) (fun v => negb (Rltb v 0.6))).
    + f_equal; lia.
    + intros u v. rewrite kindOfDraws_spec.
      destruct (Rltb u 0.4); [reflexivity|]. destruct (Rltb v 0.6); reflexivity.
Qed.

(** At any resolution.  The values of the grid below a threshold are a
    prefix of it. *)
Lemma prefix_count (p : nat -> bool) :
  (forall j k, (j <= k)%nat -> p k = true -> p j = true) ->
  forall N,
    (length (filter p (seq 0 N)) <= N)%nat
    /\ forall k, (k < N)%nat -> p k = (k <? length (filter p (seq 0 N)))%nat.
Proof.
  intros Hdown. induction N as [|N [IHle IH]]; [split; [simpl; lia | intros k Hk; lia]|].
  rewrite seq_S, filter_app, length_app. simpl.
  destruct (p N) eqn:HpN; simpl.
  - assert (Hall : length (filter p (seq 0 N)) = N).
    { destruct N as [|N']; [reflexivity|].
      assert (Hp : p N' = true) by (apply (Hdown N' (S N')); [lia | exact HpN]).
      rewrite (IH N') in Hp by lia. apply Nat.ltb_lt in Hp. lia. }
    rewrite Hall. split; [lia|]. intros k Hk.
    assert (Hpk : p k = true) by (apply (Hdown k N); [lia | exact HpN]).
    rewrite Hpk. symmetry. apply Nat.ltb_lt. lia.
  - rewrite Nat.add_0_r. split; [lia|]. intros k Hk.
    destruct (Nat.eq_dec k N) as [-> | Hne].
    + rewrite HpN. symmetry. apply Nat.ltb_ge. exact IHle.
    + apply IH. lia.
Qed.

(** The number [c] of the [N] grid values below a threshold [x] of [0, 1]
    satisfies [x N <= c < x N + 1]. *)
Lemma grid_count_bounds (n : nat) (x : R) :
  0 <= x <= 1 ->
  let c := INR (length (filter (fun u => Rltb u x) (grid (S n)))) in
  x * INR (S n) <= c < x * INR (S n) + 1 /\ c <= INR (S n).
Proof.
  intros Hx. cbv zeta. remember (S n) as N eqn:EN.
  assert (HN : 0 < INR N) by (apply lt_0_INR; lia).
  clear EN n.
  set (p := fun k => Rltb (INR k / INR N) x).
  assert (Hlen : length (filter (fun u => Rltb u x) (grid N)) = length (filter p (seq 0 N))).
  { unfold grid. induction (seq 0 N) as [|k l IH]; simpl; [reflexivity|].
    unfold p at 1. destruct (Rltb (INR k / INR N) x); simpl; rewrite IH; reflexivity. }
  rewrite Hlen.
  assert (Hdown : forall j k, (j <= k)%nat -> p k = true -> p j = true).
  { unfold p; intros j k Hjk Hk. apply Rltb_true_iff in Hk. apply Rltb_true.
    apply le_INR in Hjk.
    assert (INR j / INR N <= INR k / INR N).
    { unfold Rdiv. apply Rmult_le_compat_r; [left; apply Rinv_0_lt_compat; lra | lra]. }
    lra. }
  destruct (prefix_count p Hdown N) as [Hle Hpre].
  set (c := length (filter p (seq 0 N))) in *.
  assert (HcN : INR c <= INR N) by (apply le_INR; exact Hle).
  split; [|exact HcN]. split.
  - destruct (Nat.eq_dec c N) as [-> | Hne]; [nra|].
    assert (Hpc : p c = false).
    { rewrite Hpre by lia. apply Nat.ltb_ge. lia. }
    unfold p in Hpc. apply Rltb_false_iff in Hpc.
    apply (Rmult_le_compat_r (INR N)) in Hpc; [|lra].
    unfold Rdiv in Hpc. rewrite Rmult_assoc, Rinv_l, Rmult_1_r in Hpc by lra. exact Hpc.
  - destruct c as [|c']; [simpl; nra|].
    assert (Hpc : p c' = true).
    { rewrite Hpre by lia. apply Nat.ltb_lt. lia. }
    unfold p in Hpc. apply Rltb_true_iff in Hpc.
    apply (Rmult_lt_compat_r (INR N)) in Hpc; [|lra].
    unfold Rdiv in Hpc. rewrite Rmult_assoc, Rinv_l, Rmult_1_r in Hpc by lra.
    rewrite S_INR. lra.
Qed.

Lemma ratio_close (X p n : R) :
  0 < n -> p * n * n - n <= X <= p * n * n + n ->
  Rabs (X / (n * n) - p) <= 1 / n.
Proof.
  intros Hn HX.
  assert (Hi : 0 < / (n * n)) by (apply Rinv_0_lt_compat; nra).
  replace (X / (n * n) - p) with ((X - p * n * n) * / (n * n)) by (field; lra).
  replace (1 / n) with (n * / (n * n)) by (field; lra).
  apply Rabs_le. split.
  - replace (- (n * / (n * n))) with ((- n) * / (n * n)) by ring.
    apply Rmult_le_compat_r; lra.
  - apply Rmult_le_compat_r; lra.
Qed.

(** The probabilities at any resolution [N = n + 1]: each is within
    [1 / N] of 0.4, 0.24, 0.36. *)
Lemma kindProb_any_resolution (n : nat) :
  Rabs (kindProb (S n) shield - 0.4) <= 1 / INR (S n)
  /\ Rabs (kindProb (S n) rapid - 0.24) <= 1 / INR (S n)
  /\ Rabs (kindProb (S n) heal - 0.36) <= 1 / INR (S n).
Proof.
  pose proof (grid_count_bounds n 0.4 ltac:(lra)) as [B4 L4].
  pose proof (grid_count_bounds n 0.6 ltac:(lra)) as [B6 L6].
  cbv zeta in B4, B6, L4, L6.
  pose proof (length_filter_negb (fun u => Rltb u 0.4) (grid (S n))) as N4.
  pose proof (length_filter_negb (fun u => Rltb u 0.6) (grid (S n))) as N6.
  rewrite grid_length in N4, N6.
  apply (f_equal INR) in N4. apply (f_equal INR) in N6.
  rewrite plus_INR in N4, N6.
  assert (HN : 1 <= INR (S n)) by (rewrite S_INR; pose proof (pos_INR n); lra).
  assert (Hks : forall u v, kind_eqb (kindOfDraws u v) shield
                            = Rltb u 0.4 && (fun _ => true) v).
  { intros u v. rewrite kindOfDraws_spec.
    destruct (Rltb u 0.4); [reflexivity|]. destruct (Rltb v 0.6); reflexivity. }
  assert (Hkr : forall u v, kind_eqb (kindOfDraws u v) rapid
                            = negb (Rltb u 0.4) && negb (Rltb v 0.6)).
  { intros u v. rewrite kindOfDraws_spec.
    destruct (Rltb u 0.4); [reflexivity|]. destruct (Rltb v 0.6); reflexivity. }
  assert (Hkh : forall u v, kind_eqb (kindOfDraws u v) heal
                            = negb (Rltb u 0.4) && Rltb v 0.6).
  { intros u v. rewrite kindOfDraws_spec.
    destruct (Rltb u 0.4); [reflexivity|]. destruct (Rltb v 0.6); reflexivity. }
  unfold kindProb.
  rewrite (kindCount_prod _ _ _ _ Hks), (kindCount_prod _ _ _ _ Hkr),
    (kindCount_prod _ _ _ _ Hkh).
  rewrite length_filter_true, grid_length, !mult_INR.
  set (A := INR (length (filter (fun u => Rltb u 0.4) (grid (S n))))) in *.
  set (B := INR (length (filter (fun u => Rltb u 0.6) (grid (S n))))) in *.
  set (A' := INR (length (filter (fun u => negb (Rltb u 0.4)) (grid (S n))))) in *.
  set (B' := INR (length (filter (fun u => negb (Rltb u 0.6)) (grid (S n))))) in *.
  set (N := INR (S n)) in *.
  assert (HA' : A' = N - A) by lra. assert (HB' : B' = N - B) by lra.
  rewrite HA', HB'.
  split; [|split]; apply ratio_close; try lra; split; nra.
Qed.

(** C6.  [spawnPowerUp] picks the kind from the next two draws of the
    stream.  For two independent draws, each uniform over the [N] values
    [k / N] of [0, 1): at every resolution [N] that is a multiple of 5 the
    kind is shield with probability 0.4, rapid-fire with probability 0.24
    and heal with probability 0.36, each within 0.04 of the figures 40%,
    20%, 40%; at every resolution [N] the three probabilities are within
    [1 / N] of 0.4, 0.24 and 0.36. *)
Theorem pickup_kind_distribution :
  (forall W dpr pos g, exists p,
      powerups (spawnPowerUp W dpr pos g) = powerups g ++ [p]
      /\ p_kind p = kindOfDraws (rng g 0%nat) (rng g 1%nat))
  /\ (forall u1 u2,
        kindOfDraws u1 u2
        = if Rltb u1 0.4 then shield else if Rltb u2 0.6 then heal else rapid)
  /\ (forall m,
        kindProb (5 * S m) shield = 0.4
        /\ kindProb (5 * S m) rapid = 0.24
        /\ kindProb (5 * S m) heal = 0.36
        /\ Rabs (kindProb (5 * S m) shield - 0.4) <= 0.04
        /\ Rabs (kindProb (5 * S m) rapid - 0.2) <= 0.04
        /\ Rabs (kindProb (5 * S m) heal - 0.4) <= 0.04)
  /\ (forall n,
        Rabs (kindProb (S n) shield - 0.4) <= 1 / INR (S n)
        /\ Rabs (kindProb (S n) rapid - 0.24) <= 1 / INR (S n)
        /\ Rabs (kindProb (S n) heal - 0.36) <= 1 / INR (S n)).
Proof.
  split; [|split; [exact kindOfDraws_spec | split; [|exact kindProb_any_resolution]]].
  - intros W dpr pos g. rewrite <- pickKind_kindOfDraws.
    unfold spawnPowerUp.
    destruct (pickKind g) as [kind g1] eqn:Hk.
    assert (Hp : powerups g1 = powerups g).
    { unfold pickKind, random in Hk; simpl in Hk.
      destruct (Rltb (rng g 0%nat) 0.4); [inversion Hk; reflexivity|].
      destruct (Rltb (rng g 1%nat) 0.6); inversion Hk; reflexivity. }
    destruct pos as [v|]; unfold rand, random; simpl; rewrite Hp; eexists; split; reflexivity.
  - intros m.
    destruct (kindCount_grid (S m)) as (Hs & Hh & Hr); [lia|].
    assert (HM : 0 < INR (S m)) by (apply lt_0_INR; lia).
    assert (Ps : kindProb (5 * S m) shield = 0.4).
    { unfold kindProb. rewrite Hs, !mult_INR. simpl (INR 5). simpl (INR 2).
      transitivity (2 / 5); [field; lra | lra]. }
    assert (Pr : kindProb (5 * S m) rapid = 0.24).
    { unfold kindProb. rewrite Hr, !mult_INR. simpl (INR 5). simpl (INR 3). simpl (INR 2).
      transitivity (6 / 25); [field; lra | lra]. }
    assert (Ph : kindProb (5 * S m) heal = 0.36).
    { unfold kindProb. rewrite Hh, !mult_INR. simpl (INR 5). simpl (INR 3).
      transitivity (9 / 25); [field; lra | lra]. }
    rewrite Ps, Pr, Ph. repeat split; try reflexivity;
      unfold Rabs; match goal with |- context [Rcase_abs ?x] => destruct (Rcase_abs x) end; lra.
Qed.

(** ** Bullets against hostiles *)

(** C3.  The loop over the hostiles goes on after a hit: a bullet that
    overlaps two hostiles takes a hit point from each of them in the same
    frame.  Here the bullet at (100, 200) of radius 4 overlaps the
    hostiles at (100, 195) and (105, 200) of radius 12, which have 2 hit
    points each; after the loop the bullet has lifetime 0, both hostiles
    have 2 - 1 hit points, and the hit sound has played twice. *)
Theorem bullet_hits_two_hostiles (g : Game) :
  bulletsVsEnemies 800 600 1
    [mkBullet 100 200 0 (-900) 4 1.5 "#00fff0"]
    [mkEnemy 100 195 0 140 12 2 swoop; mkEnemy 105 200 0 140 12 2 zig] g
  = ([mkBullet 100 200 0 (-900) 4 0 "#00fff0"],
     [mkEnemy 100 195 0 140 12 (2 - 1) swoop; mkEnemy 105 200 0 140 12 (2 - 1) zig],
     play SfxHit (play SfxHit g)).
Proof.
  unfold bulletsVsEnemies, bulletVsEnemies, hit; simpl.
  cmp. reflexivity.
Qed.

(** * Further properties of the code *)

(** ** Helpers *)

(** X1.  [clamp] with ordered bounds answers a value within the bounds:
    the value itself when it is within them, the nearer bound otherwise;
    clamping twice is clamping once, and [clamp] is monotone.  With
    inverted bounds it answers the lower bound, whatever the value. *)
Theorem clamp_cases (v lo hi : R) :
  (lo <= hi ->
     lo <= clamp v lo hi <= hi
     /\ (lo <= v <= hi -> clamp v lo hi = v)
     /\ (v <= lo -> clamp v lo hi = lo)
     /\ (hi <= v -> clamp v lo hi = hi)
     /\ clamp (clamp v lo hi) lo hi = clamp v lo hi
     /\ (forall w, v <= w -> clamp v lo hi <= clamp w lo hi))
  /\ (hi <= lo -> clamp v lo hi = lo).
Proof.
  unfold clamp. split.
  - intros Hle. repeat split; try (intros; minmax; lra); minmax; lra.
  - intros Hinv. minmax; lra.
Qed.

(** The clamp of the ship on a canvas of width 800 and on one that is
    narrower than the two margins. *)
Lemma clamp_cases_witness :
  clamp 900 20 780 = 780 /\ clamp 5 20 780 = 20 /\ clamp 300 20 780 = 300
  /\ clamp 300 20 10 = 20.
Proof.
  destruct (clamp_cases 900 20 780) as [H1 _].
  destruct (clamp_cases 5 20 780) as [H2 _].
  destruct (clamp_cases 300 20 780) as [H3 _].
  destruct (clamp_cases 300 20 10) as [_ H4].
  destruct (H1 ltac:(lra)) as (_ & _ & _ & Hhi & _).
  destruct (H2 ltac:(lra)) as (_ & _ & Hlo & _).
  destruct (H3 ltac:(lra)) as (_ & Hin & _).
  repeat split; [apply Hhi | apply Hlo | apply Hin | apply H4]; lra.
Defined.

(** X2.  For a draw in [0, 1), [rand(min, max)] is in [min, max) when
    [min < max], is [min] when the bounds are equal, and is in
    (max, min] when they are inverted; the call takes one draw from the
    stream. *)
Theorem rand_range (lo hi : R) (g : Game) :
  0 <= rng g 0%nat < 1 ->
  (lo < hi -> lo <= fst (rand lo hi g) < hi)
  /\ (lo = hi -> fst (rand lo hi g) = lo)
  /\ (hi < lo -> hi < fst (rand lo hi g) <= lo)
  /\ (forall n, rng (snd (rand lo hi g)) n = rng g (S n)).
Proof.
  intros Hu. unfold rand, random, rand_of; simpl.
  repeat split; try (intros; nra). 
Qed.

Lemma rand_range_witness :
  8 <= fst (rand 8 14 (game0 (fun _ => 1 / 2))) < 14.
Proof.
  destruct (rand_range 8 14 (game0 (fun _ => 1 / 2))) as (H & _); [simpl; lra|].
  apply H; lra.
Defined.

(** ** Level *)

(** X3.  The level of the HUD is an integer from 1 to 6 for every score,
    it does not decrease when the score grows, and for a score that is not
    negative it is the integer part of the difficulty; it is 6 from the
    score 2000 on. *)
Theorem level_range_floor :
  (forall sc, (1 <= level sc <= 6)%Z)
  /\ (forall s1 s2, s1 <= s2 -> (level s1 <= level s2)%Z)
  /\ (forall sc, 0 <= sc -> level sc = Zfloor (difficulty sc))
  /\ (forall sc, 2000 <= sc -> level sc = 6%Z /\ difficulty sc = 6).
Proof.
  split; [|split; [|split]].
  - intros sc. unfold level. lia.
  - intros s1 s2 Hs. unfold level.
    assert (Zfloor (s1 / 400) <= Zfloor (s2 / 400))%Z by (apply Zfloor_le; lra).
    lia.
  - intros sc Hs. unfold level, difficulty.
    assert (H0 : (0 <= Zfloor (sc / 400))%Z) by (apply (Zfloor_lub 0); simpl; lra).
    pose proof (Zfloor_bound (sc / 400)) as [Hlo Hhi].
    symmetry. unfold Rmin. destruct (Rle_dec 6 (1 + sc / 400)) as [H6 | H6].
    + rewrite (ZfloorZ 6).
      assert (5 <= Zfloor (sc / 400))%Z by (apply (Zfloor_lub 5); simpl; lra).
      lia.
    + assert (Hlt : (Zfloor (sc / 400) < 5)%Z).
      { apply lt_IZR. simpl. lra. }
      rewrite (Zfloor_eq (1 + Zfloor (sc / 400)) (1 + sc / 400)).
      * lia.
      * rewrite plus_IZR. simpl. lra.
  - intros sc Hs. split.
    + unfold level.
      assert (5 <= Zfloor (sc / 400))%Z by (apply (Zfloor_lub 5); simpl; lra).
      lia.
    + unfold difficulty. minmax; lra.
Qed.

Lemma level_range_floor_witness :
  (level 850 <= level 1300)%Z /\ level 1300 = Zfloor (difficulty 1300)
  /\ level 2500 = 6%Z.
Proof.
  destruct level_range_floor as (_ & Hm & Hf & H6).
  split; [apply Hm; lra|]. split; [apply Hf; lra|]. apply H6; lra.
Defined.

(** ** The canvas *)

(** X4.  The pixel ratio used by the game is 1 when the device reports
    none (or 0), the device's ratio up to 2, and 2 beyond: for a ratio
    that is not negative it is in (0, 2].  The canvas is at most one
    pixel short of the container scaled by [dpr].  For a device ratio of
    at least 1 and a container of at least 41 x 41 CSS pixels, the canvas
    holds the two margins of the ship, and after every frame that runs
    the ship is within them. *)
Theorem canvas_holds_margins (ratio w h : R) :
  (ratio = 0 -> dprOf ratio = 1)
  /\ (0 <= ratio -> 0 < dprOf ratio <= 2)
  /\ (0 < ratio <= 2 -> dprOf ratio = ratio)
  /\ (2 <= ratio -> dprOf ratio = 2)
  /\ (forall dpr, w * dpr - 1 < canvasSize w dpr <= w * dpr)
  /\ (1 <= ratio -> 41 <= w -> 41 <= h ->
      let dpr := dprOf ratio in
      let W := canvasSize w dpr in
      let H := canvasSize h dpr in
      40 * dpr <= W /\ 40 * dpr <= H
      /\ forall t g, running g = true ->
           20 * dpr <= s_x (ship (loop W H dpr t g)) <= W - 20 * dpr
           /\ 20 * dpr <= s_y (ship (loop W H dpr t g)) <= H - 20 * dpr).
Proof.
  assert (Hfl : forall a dpr, a * dpr - 1 < canvasSize a dpr <= a * dpr).
  { intros a dpr. unfold canvasSize. pose proof (Zfloor_bound (a * dpr)). lra. }
  unfold dprOf, orOne.
  split; [|split; [|split; [|split; [|split]]]].
  - intros ->. destruct (Req_dec_T 0 0); [|lra]. minmax; lra.
  - intros Hr. destruct (Req_dec_T ratio 0); minmax; lra.
  - intros Hr. destruct (Req_dec_T ratio 0); minmax; lra.
  - intros Hr. destruct (Req_dec_T ratio 0); minmax; lra.
  - intros dpr. apply Hfl.
  - intros Hr Hw Hh.
    set (dpr := Rmin (if Req_dec_T ratio 0 then 1 else ratio) 2).
    assert (Hd : 1 <= dpr <= 2).
    { subst dpr. destruct (Req_dec_T ratio 0); minmax; lra. }
    cbv zeta. pose proof (Hfl w dpr) as Fw. pose proof (Hfl h dpr) as Fh.
    assert (HW : 40 * dpr <= canvasSize w dpr) by nra.
    assert (HH : 40 * dpr <= canvasSize h dpr) by nra.
    split; [exact HW|]. split; [exact HH|].
    intros t g Hrun.
    destruct (loop_ship_pos (canvasSize w dpr) (canvasSize h dpr) dpr t g Hrun) as [Sx Sy].
    destruct (moveShip_pos (canvasSize w dpr) (canvasSize h dpr) dpr
                (frame_dt (lastTime g) t) (target g) (ship g)) as [Mx My].
    rewrite Sx, Sy, Mx, My. split; apply clamp_bounds; lra.
Qed.

Lemma canvas_holds_margins_witness :
  dprOf 0 = 1 /\ dprOf 3 = 2 /\ 0 < dprOf 1.5 <= 2
  /\ 40 * dprOf 1.5 <= canvasSize 360 (dprOf 1.5).
Proof.
  destruct (canvas_holds_margins 0 360 640) as (H0 & _).
  destruct (canvas_holds_margins 3 360 640) as (_ & _ & _ & H3 & _).
  destruct (canvas_holds_margins 1.5 360 640) as (_ & Hr & _ & _ & _ & Hc).
  split; [apply H0; reflexivity|]. split; [apply H3; lra|].
  split; [apply Hr; lra|]. apply Hc; lra.
Defined.

(** ** The starfield *)

Lemma makeStarsLoop_spec (count : nat) :
  forall arr g,
    (forall n, 0 <= rng g n < 1) ->
    Forall starOk arr ->
    length (fst (makeStarsLoop count arr g)) = (length arr + count)%nat
    /\ Forall starOk (fst (makeStarsLoop count arr g))
    /\ (forall n, rng (snd (makeStarsLoop count arr g)) n = rng g (3 * count + n)%nat)
    /\ (forall g', snd (makeStarsLoop count arr g) = g' ->
          set_rng (rng g) g' = g).
Proof.
  induction count as [|count IH]; intros arr g Hu Harr.
  - simpl. rewrite Nat.add_0_r. repeat split; auto.
    intros g' <-. destruct g; reflexivity.
  - cbn [makeStarsLoop]. unfold rand, random. cbn [fst snd].
    set (g3 := set_rng _ (set_rng _ (set_rng _ g))).
    set (st := mkStar _ _ _).
    assert (Hu3 : forall n, 0 <= rng g3 n < 1) by (intros n; apply Hu).
    assert (Hst : starOk st).
    { unfold starOk, st, rand_of; simpl.
      pose proof (Hu 0%nat). pose proof (Hu 1%nat). pose proof (Hu 2%nat).
      repeat split; lra. }
    destruct (IH (arr ++ [st]) g3 Hu3) as (Hl & Hf & Hr & Hg).
    { apply Forall_app; split; [exact Harr | constructor; [exact Hst | constructor]]. }
    rewrite length_app in Hl. simpl in Hl.
    split; [rewrite Hl; lia|]. split; [exact Hf|]. split.
    + intros n. rewrite Hr. simpl. f_equal. lia.
    + intros g' Hg'. specialize (Hg g' Hg').
      destruct g'; simpl in *. inversion Hg. destruct g; simpl in *. subst.
      reflexivity.
Qed.

(** X5.  For draws in [0, 1), [makeStars] makes 320 stars, each with [x]
    and [y] in [0, 1) and [z] in [0.2, 1), from 960 draws, and touches
    nothing else.  The update of a star in [drawBackground] keeps [x] and
    [z]; for [z <= 1.2] and [dpr >= 0] it keeps [y] within [0, 1]; and a
    star whose step per frame is more than 1 is at the top ([y = 0])
    after every update. *)
Theorem starfield_bounds (g : Game) :
  (forall n, 0 <= rng g n < 1) ->
  (length (fst (makeStars g)) = 320%nat
   /\ Forall starOk (fst (makeStars g))
   /\ (forall n, rng (snd (makeStars g)) n = rng g (960 + n)%nat)
   /\ set_rng (rng g) (snd (makeStars g)) = g)
  /\ (forall dpr s,
        st_x (stepStar dpr s) = st_x s /\ st_z (stepStar dpr s) = st_z s
        /\ (0 <= dpr -> st_z s <= 1.2 -> 0 <= st_y s <= 1 ->
            0 <= st_y (stepStar dpr s) <= 1)
        /\ (0 <= st_y s -> 1 < (1.2 - st_z s) * 60 * dpr * 0.016 ->
            st_y (stepStar dpr s) = 0)).
Proof.
  intros Hu. split.
  - unfold makeStars.
    destruct (makeStarsLoop_spec 320 [] g Hu (Forall_nil _)) as (Hl & Hf & Hr & Hg).
    split; [exact Hl|]. split; [exact Hf|]. split; [exact Hr|].
    apply Hg. reflexivity.
  - intros dpr s. unfold stepStar; simpl. split; [reflexivity|]. split; [reflexivity|].
    split.
    + intros Hd Hz Hy.
      destruct (Rltb 1 (st_y s + (1.2 - st_z s) * 60 * dpr * 0.016)) eqn:E; [lra|].
      apply Rltb_false_iff in E. split; [nra | exact E].
    + intros Hy Hbig. rewrite Rltb_true by lra. reflexivity.
Qed.

(** The stars drawn from the constant stream 1/2, and a star of depth 0.2
    on a display of pixel ratio 2. *)
Lemma starfield_bounds_witness :
  length (fst (makeStars (game0 (fun _ => 1 / 2)))) = 320%nat
  /\ st_y (stepStar 2 (mkStar 0.5 0.5 0.2)) = 0.
Proof.
  destruct (starfield_bounds (game0 (fun _ => 1 / 2))) as [(Hl & _) Hs].
  { intros n; simpl; lra. }
  split; [exact Hl|].
  destruct (Hs 2 (mkStar 0.5 0.5 0.2)) as (_ & _ & _ & Hz).
  apply Hz; simpl; lra.
Defined.

(** ** The gate of the home page *)

(** X6.  At first the gate is shown, the page cannot scroll and the game
    is not mounted.  After any clicks on Play and Close, at least one,
    the gate is hidden for good and the page scrolls; the game is mounted
    exactly when the last click was on Play. *)
Theorem home_gate (cs : list HomeClick) (c : HomeClick) :
  showGate home0 = true /\ scrollLocked home0 = true /\ started home0 = false
  /\ showGate (fold_left homeClick (cs ++ [c]) home0) = false
  /\ scrollLocked (fold_left homeClick (cs ++ [c]) home0) = false
  /\ started (fold_left homeClick (cs ++ [c]) home0)
     = match c with ClickPlay => true | ClickClose => false end.
Proof.
  rewrite fold_left_app. simpl.
  destruct c; repeat split; reflexivity.
Qed.

(** ** Keyboard *)

Lemma togglePause_twice (g : Game) : togglePause (togglePause g) = g.
Proof. destruct g as [r ? ? ? ? ? ? ? ? ? ? ? ? ? ?]; destruct r; reflexivity. Qed.

Lemma toggleAutofire_twice (g : Game) : toggleAutofire (toggleAutofire g) = g.
Proof. destruct g as [? ? ? ? a ? ? ? ? ? ? ? ? ? ?]; destruct a; reflexivity. Qed.

(** X7.  The keyboard handler records in the table whether the key is
    held.  A key release, and a key press that is an auto-repeat, leave
    the session as it is.  A first press of P or Escape (in any case)
    toggles [running] and nothing else, also when the game is over; a
    first press of the space bar toggles [autofire] and nothing else; a
    first press of R or Enter restarts the game when it is over and does
    nothing otherwise.  Two presses of P, or of the space bar, give back
    the state. *)
Theorem onKey_session (e : KeyEvent) (keys : Keys) (g : Game) :
  let lower := toLowerCase (k_key e) in
  let code := toLowerCase (k_code e) in
  let g' := snd (onKey e keys g) in
  snd (fst (onKey e keys g)) lower = isDown e
  /\ (forall k, k <> lower -> snd (fst (onKey e keys g)) k = keys k)
  /\ (isDown e = false \/ k_repeat e = true -> g' = g)
  /\ (isDown e = true -> k_repeat e = false ->
      (isSpace e = false -> code <> "enter"%string ->
       (lower = "p"%string \/ lower = "escape"%string -> g' = togglePause g)
       /\ (lower = "r"%string -> g' = if gameOver g then restart g else g))
      /\ (isSpace e = true -> code <> "enter"%string ->
          lower <> "p"%string -> lower <> "escape"%string -> lower <> "r"%string ->
          g' = toggleAutofire g)
      /\ (isSpace e = false -> code = "enter"%string ->
          lower <> "p"%string -> lower <> "escape"%string ->
          g' = if gameOver g then restart g else g))
  /\ togglePause (togglePause g) = g
  /\ toggleAutofire (toggleAutofire g) = g.
Proof.
  cbv zeta. unfold onKey.
  split; [|split; [|split; [|split; [|split]]]].
  - destruct (isDown e && k_repeat e); simpl; unfold setKey; rewrite String.eqb_refl;
      reflexivity.
  - intros k Hk.
    destruct (isDown e && k_repeat e); simpl; unfold setKey;
      destruct (String.eqb_spec k (toLowerCase (k_key e))); congruence.
  - intros [Hup | Hrep].
    + rewrite Hup. simpl. rewrite !andb_false_r. reflexivity.
    + destruct (isDown e); simpl; rewrite ?Hrep; simpl; [reflexivity|].
      rewrite !andb_false_r. reflexivity.
  - intros Hdown Hrep. rewrite Hdown, Hrep. simpl. rewrite !andb_true_r.
    split; [|split].
    + intros Hsp Hcode. rewrite Hsp.
      apply String.eqb_neq in Hcode. rewrite Hcode, orb_false_r.
      split.
      * intros [Hp | Hesc].
        -- rewrite Hp. reflexivity.
        -- rewrite Hesc. reflexivity.
      * intros Hr. rewrite Hr. simpl. destruct (gameOver g); reflexivity.
    + intros Hsp Hcode Hp Hesc Hr. rewrite Hsp.
      apply String.eqb_neq in Hcode, Hp, Hesc, Hr.
      rewrite Hcode, Hp, Hesc, Hr. reflexivity.
    + intros Hsp Hcode Hp Hesc. rewrite Hsp, Hcode.
      apply String.eqb_neq in Hp, Hesc. rewrite Hp, Hesc. simpl.
      rewrite orb_true_r. simpl. destruct (gameOver g); reflexivity.
  - apply togglePause_twice.
  - apply toggleAutofire_twice.
Qed.

(** A first press of [P] while the game is over, an auto-repeat of it, and
    a press of [R] while the game goes on. *)
Lemma onKey_session_witness :
  let over := set_running false (set_gameOver true (game0 (fun _ => 0))) in
  snd (onKey (mkKeyEvent "P" "KeyP" keydown false) noKeys over) = togglePause over
  /\ snd (onKey (mkKeyEvent "P" "KeyP" keydown true) noKeys over) = over
  /\ snd (onKey (mkKeyEvent "r" "KeyR" keydown false) noKeys (game0 (fun _ => 0)))
     = game0 (fun _ => 0).
Proof.
  intros over.
  destruct (onKey_session (mkKeyEvent "P" "KeyP" keydown false) noKeys over)
    as (_ & _ & _ & H1 & _).
  destruct (onKey_session (mkKeyEvent "P" "KeyP" keydown true) noKeys over)
    as (_ & _ & H2 & _).
  destruct (onKey_session (mkKeyEvent "r" "KeyR" keydown false) noKeys (game0 (fun _ => 0)))
    as (_ & _ & _ & H3 & _).
  split; [|split].
  - destruct (H1 eq_refl eq_refl) as (Hp & _).
    destruct (Hp eq_refl) as [Hp' _]; [discriminate|]. apply Hp'. left; reflexivity.
  - apply H2. right; reflexivity.
  - destruct (H3 eq_refl eq_refl) as (Hr & _).
    destruct (Hr eq_refl) as [_ Hr']; [discriminate|]. apply (Hr' eq_refl).
Defined.

(** ** Reaching the target *)

Lemma hypot_eq (a b m : R) : 0 <= m -> a * a + b * b = m * m -> hypot a b = m.
Proof.
  intros Hm Hs. unfold hypot. rewrite Hs. apply sqrt_square. exact Hm.
Qed.

(** X8.  With [m = speed * dt * dpr >= 0] and [d] the distance from the
    ship to the target (in canvas pixels): when [d <= m] the move of a
    frame puts the ship exactly on the target; when [m <= d] it moves
    the ship by exactly [m], and the distance left to the target is
    [d - m].  The ship never overshoots. *)
Theorem moveToward_reach (dpr dt : R) (tg : Vec) (s : Ship) :
  0 <= s_speed s * dt * dpr ->
  let m := s_speed s * dt * dpr in
  let d := hypot (v_x tg * dpr - s_x s) (v_y tg * dpr - s_y s) in
  let x1 := fst (moveToward dpr dt tg s) in
  let y1 := snd (moveToward dpr dt tg s) in
  (d <= m -> x1 = v_x tg * dpr /\ y1 = v_y tg * dpr)
  /\ (m <= d ->
      hypot (x1 - s_x s) (y1 - s_y s) = m
      /\ hypot (v_x tg * dpr - x1) (v_y tg * dpr - y1) = d - m).
Proof.
  intros Hm. cbv zeta. unfold moveToward; simpl.
  set (dx := v_x tg * dpr - s_x s). set (dy := v_y tg * dpr - s_y s).
  set (m := s_speed s * dt * dpr) in *.
  pose proof (hypot_nonneg dx dy) as Hd0.
  pose proof (hypot_sqr dx dy) as Hsq.
  unfold orOne. destruct (Req_dec_T (hypot dx dy) 0) as [Hz | Hnz].
  - destruct (hypot_zero dx dy Hz) as [Hx Hy]. rewrite Hz.
    assert (Ex : v_x tg * dpr = s_x s) by (unfold dx in Hx; lra).
    assert (Ey : v_y tg * dpr = s_y s) by (unfold dy in Hy; lra).
    rewrite Hx, Hy, Ex, Ey. split.
    + intros _. split; lra.
    + intros Hmd. assert (Hm0 : m = 0) by lra.
      split; apply hypot_eq; try lra; rewrite ?Hm0; nra.
  - set (d := hypot dx dy) in *.
    assert (Hd : 0 < d) by lra.
    assert (Hqd : m / d * d = m) by (field; lra).
    split.
    + intros Hdm.
      assert (Hone : Rmin 1 (m / d) = 1).
      { apply Rmin_left. apply (Rmult_le_reg_r d); [lra|]. rewrite Hqd. lra. }
      rewrite Hone. unfold dx, dy. split; lra.
    + intros Hmd.
      assert (Hst : Rmin 1 (m / d) = m / d).
      { apply Rmin_right. apply (Rmult_le_reg_r d); [lra|]. rewrite Hqd. lra. }
      rewrite Hst. set (st := m / d) in *.
      assert (Hst0 : 0 <= st).
      { unfold st, Rdiv. apply Rmult_le_pos; [lra|]. left; apply Rinv_0_lt_compat; lra. }
      split; apply hypot_eq; try lra.
      * replace ((s_x s + dx * st - s_x s) * (s_x s + dx * st - s_x s)
                 + (s_y s + dy * st - s_y s) * (s_y s + dy * st - s_y s))
          with ((st * d) * (st * d)) by (rewrite <- ?Rmult_assoc; nra).
        rewrite Hqd. reflexivity.
      * replace (v_x tg * dpr - (s_x s + dx * st)) with (dx * (1 - st)) by (unfold dx; ring).
        replace (v_y tg * dpr - (s_y s + dy * st)) with (dy * (1 - st)) by (unfold dy; ring).
        replace (d - m) with (d * (1 - st)) by (rewrite <- Hqd; ring).
        nra.
Qed.

(** From (200, 300) toward (203, 304), which is 5 away, the ship arrives
    in a frame of 16 ms; toward (500, 300) it moves by 6.72. *)
Lemma moveToward_reach_witness :
  (fst (moveToward 1 0.016 (mkVec 203 304) ship0) = 203 * 1
   /\ snd (moveToward 1 0.016 (mkVec 203 304) ship0) = 304 * 1)
  /\ hypot (fst (moveToward 1 0.016 (mkVec 500 300) ship0) - 200)
           (snd (moveToward 1 0.016 (mkVec 500 300) ship0) - 300)
     = 420 * 0.016 * 1.
Proof.
  destruct (moveToward_reach 1 0.016 (mkVec 203 304) ship0) as [Hnear _].
  { simpl; lra. }
  destruct (moveToward_reach 1 0.016 (mkVec 500 300) ship0) as [_ Hfar].
  { simpl; lra. }
  split.
  - apply Hnear. simpl. apply hypot_le; lra.
  - apply Hfar. simpl. rewrite (hypot_eq _ _ 300); lra.
Defined.

Lemma hypot_ge (a b m : R) : 0 <= m -> m * m <= a * a + b * b -> m <= hypot a b.
Proof.
  intros Hm Hs. unfold hypot.
  rewrite <- (sqrt_square m Hm). apply sqrt_le_1_alt. exact Hs.
Qed.

Lemma keyDx_cases (keys : Keys) (sp : R) :
  keyDx keys sp = 0 \/ keyDx keys sp = sp \/ keyDx keys sp = - sp.
Proof.
  unfold keyDx.
  destruct (keys "arrowleft"%string || keys "a"%string);
    destruct (keys "arrowright"%string || keys "d"%string);
    [left | right; right | right; left | left]; lra.
Qed.

Lemma keyDy_cases (keys : Keys) (sp : R) :
  keyDy keys sp = 0 \/ keyDy keys sp = sp \/ keyDy keys sp = - sp.
Proof.
  unfold keyDy.
  destruct (keys "arrowup"%string || keys "w"%string);
    destruct (keys "arrowdown"%string || keys "s"%string);
    [left | right; right | right; left | left]; lra.
Qed.

(** X9.  The keyboard timer.  When no direction is held, or when opposite
    directions cancel on both axes, the target stays as it is.
    Otherwise the target is put, in CSS pixels, at 0.16 times the speed
    from the ship along each axis held, and in the next frame (pixel
    ratio [dpr > 0], elapsed time [0 <= dt <= 0.16]) the ship moves in
    that direction by exactly [speed * dt * dpr]: the keys drive the ship
    at full speed whatever the pixel ratio. *)
Theorem keyTick_full_speed (dpr dt : R) (keys : Keys) (g : Game) :
  0 < dpr -> 0 <= s_speed (ship g) -> 0 <= dt <= 0.16 ->
  let sp := s_speed (ship g) * 0.16 in
  let dx := keyDx keys sp in
  let dy := keyDy keys sp in
  let g' := keyTick dpr keys g in
  (dx = 0 /\ dy = 0 -> g' = g)
  /\ (dx <> 0 \/ dy <> 0 ->
      v_x (target g') * dpr - s_x (ship g) = dx * dpr
      /\ v_y (target g') * dpr - s_y (ship g) = dy * dpr
      /\ exists k, 0 <= k
           /\ fst (moveToward dpr dt (target g') (ship g')) = s_x (ship g) + k * dx
           /\ snd (moveToward dpr dt (target g') (ship g')) = s_y (ship g) + k * dy
           /\ hypot (k * dx) (k * dy) = s_speed (ship g) * dt * dpr).
Proof.
  intros Hdpr Hsp Hdt. cbv zeta. unfold keyTick.
  set (sp := s_speed (ship g) * 0.16).
  set (dx := keyDx keys sp). set (dy := keyDy keys sp).
  split.
  - intros [Hx Hy]. rewrite Hx, Hy. unfold Rneqb.
    destruct (Req_dec_T 0 0); [reflexivity | lra].
  - intros Hmove.
    assert (Hif : Rneqb dx 0 || Rneqb dy 0 = true).
    { unfold Rneqb. destruct (Req_dec_T dx 0); destruct (Req_dec_T dy 0);
        try reflexivity. tauto. }
    rewrite Hif. cbn [target ship set_target].
    set (tg := mkVec (s_x (ship g) / dpr + dx) (s_y (ship g) / dpr + dy)).
    assert (Ex : v_x tg * dpr - s_x (ship g) = dx * dpr) by (unfold tg; simpl; field; lra).
    assert (Ey : v_y tg * dpr - s_y (ship g) = dy * dpr) by (unfold tg; simpl; field; lra).
    split; [exact Ex|]. split; [exact Ey|].
    set (m := s_speed (ship g) * dt * dpr).
    assert (Hm : 0 <= m).
    { unfold m. apply Rmult_le_pos; [apply Rmult_le_pos|]; lra. }
    assert (Hsp0 : 0 <= sp) by (unfold sp; nra).
    assert (Hbig : sp * sp <= dx * dx + dy * dy).
    { destruct (keyDx_cases keys sp) as [Hx | [Hx | Hx]];
        destruct (keyDy_cases keys sp) as [Hy | [Hy | Hy]];
        fold dx in Hx; fold dy in Hy; try nra; destruct Hmove; lra. }
    assert (Hd : sp <= hypot dx dy) by (apply hypot_ge; assumption).
    assert (Hsp1 : 0 < sp).
    { destruct (Rle_lt_or_eq_dec 0 sp Hsp0) as [Hlt | Heq]; [exact Hlt|].
      exfalso. rewrite <- Heq in Hbig.
      destruct (keyDx_cases keys sp) as [Hx | [Hx | Hx]];
        destruct (keyDy_cases keys sp) as [Hy | [Hy | Hy]];
        fold dx in Hx; fold dy in Hy; destruct Hmove; lra. }
    set (h := hypot dx dy) in *.
    assert (Hh : h * h = dx * dx + dy * dy) by apply hypot_sqr.
    assert (Hdist : hypot (dx * dpr) (dy * dpr) = h * dpr).
    { apply hypot_eq; nra. }
    assert (Hmh : m <= h * dpr).
    { unfold m. assert (s_speed (ship g) * dt <= sp) by (unfold sp; nra). nra. }
    unfold moveToward. rewrite Ex, Ey, Hdist. fold m.
    unfold orOne. destruct (Req_dec_T (h * dpr) 0) as [Hz | _]; [nra|].
    assert (Hq : m / (h * dpr) * (h * dpr) = m) by (field; lra).
    assert (Hst : Rmin 1 (m / (h * dpr)) = m / (h * dpr)).
    { apply Rmin_right. apply (Rmult_le_reg_r (h * dpr)); [nra|]. rewrite Hq. lra. }
    rewrite Hst. set (st := m / (h * dpr)) in *.
    assert (Hst0 : 0 <= st).
    { unfold st, Rdiv. apply Rmult_le_pos; [lra|]. left; apply Rinv_0_lt_compat; nra. }
    exists (dpr * st). simpl.
    split; [nra|]. split; [ring|]. split; [ring|].
    apply hypot_eq; [lra|].
    replace (dpr * st * dx * (dpr * st * dx) + dpr * st * dy * (dpr * st * dy))
      with ((dpr * st) * (dpr * st) * (dx * dx + dy * dy)) by ring.
    rewrite <- Hh.
    replace ((dpr * st) * (dpr * st) * (h * h))
      with ((st * (h * dpr)) * (st * (h * dpr))) by ring.
    rewrite Hq. reflexivity.
Qed.

(** The right arrow held on a display of pixel ratio 2: in a frame of
    16 ms the ship moves by 420 * 0.016 * 2 to the right. *)
Lemma keyTick_full_speed_witness :
  let keys := setKey noKeys "arrowright" true in
  let g := game0 (fun _ => 0) in
  exists k, 0 <= k
    /\ fst (moveToward 2 0.016 (target (keyTick 2 keys g)) (ship (keyTick 2 keys g)))
       = 200 + k * (0 + 420 * 0.16)
    /\ hypot (k * keyDx keys (420 * 0.16)) (k * keyDy keys (420 * 0.16)) = 420 * 0.016 * 2.
Proof.
  intros keys g.
  destruct (keyTick_full_speed 2 0.016 keys g) as [_ H]; try (simpl; lra).
  destruct H as (_ & _ & k & Hk & Hx & _ & Hh).
  { left. unfold keyDx, keys, setKey; simpl. lra. }
  exists k. split; [exact Hk|]. split; [|exact Hh].
  rewrite Hx. unfold keyDx, keys, setKey; simpl. reflexivity.
Defined.

(** ** Restart *)

(** X10.  [restart] keeps the autofire mode, the target, the spawn and
    fire timers, the recorded timestamp, the sound log and the stream of
    draws, and forgets everything else: two states that agree on these
    have the same restart.  The ship is back at (200, 300), and a second
    restart changes nothing. *)
Theorem restart_keeps_forgets (g g' : Game) :
  autofire g = autofire g' -> target g = target g' -> timers g = timers g' ->
  lastTime g = lastTime g' -> sfx g = sfx g' -> rng g = rng g' ->
  restart g = restart g'
  /\ restart (restart g) = restart g
  /\ autofire (restart g) = autofire g /\ target (restart g) = target g
  /\ timers (restart g) = timers g /\ lastTime (restart g) = lastTime g
  /\ ship (restart g) = ship0.
Proof.
  intros Ha Ht Htm Hl Hs Hr.
  split; [|repeat split; reflexivity].
  destruct g, g'; simpl in *. subst. reflexivity.
Qed.

(** The initial state and the same state after a hit and a pickup. *)
Lemma restart_keeps_forgets_witness :
  let g := game0 (fun _ => 0) in
  let g' := set_health 80 (set_score 25 (set_ship (set_shieldT 4 ship0) g)) in
  restart g = restart g' /\ timers (restart g) = mkTimers 0 0 5 0.
Proof.
  intros g g'.
  destruct (restart_keeps_forgets g g') as (H1 & _ & _ & _ & H2 & _); try reflexivity.
  split; [exact H1 | exact H2].
Defined.

(** ** Effects timers *)

Lemma Rsum_nonneg (ds : list R) : Forall (fun d => 0 <= d) ds -> 0 <= Rsum ds.
Proof.
  unfold Rsum. induction 1 as [|d ds Hd _ IH]; simpl; lra.
Qed.

Lemma decayAll_timers (ds : list R) :
  Forall (fun d => 0 <= d) ds ->
  forall s, 0 <= shieldT s -> 0 <= rapidT s ->
    shieldT (decayAll ds s) = Rmax 0 (shieldT s - Rsum ds)
    /\ rapidT (decayAll ds s) = Rmax 0 (rapidT s - Rsum ds)
    /\ s_x (decayAll ds s) = s_x s /\ s_y (decayAll ds s) = s_y s.
Proof.
  induction 1 as [|d ds Hd Hds IH]; intros s Hs Hr.
  - unfold Rsum; simpl. rewrite !Rminus_0_r. repeat split; minmax; lra.
  - change (decayAll (d :: ds) s) with (decayAll ds (decayEffects d s)).
    destruct (IH (decayEffects d s)) as (I1 & I2 & I3 & I4).
    + simpl. apply Rmax_l.
    + simpl. apply Rmax_l.
    + rewrite I1, I2, I3, I4. pose proof (Rsum_nonneg ds Hds) as Hsum.
      simpl. unfold Rsum in *. repeat split; minmax; lra.
Qed.

(** X11.  Over frames whose elapsed times are not negative, the decay of
    the shield and rapid-fire timers composes: after the frames the
    timers are [max(0, timer - total elapsed time)], and the position of
    the ship is untouched.  So a shield pickup (timer 4) protects as long
    as less than 4 s have elapsed, and a rapid-fire pickup (timer 5)
    lasts as long as less than 5 s have elapsed. *)
Theorem effects_decay (ds : list R) (s : Ship) :
  Forall (fun d => 0 <= d) ds -> 0 <= shieldT s -> 0 <= rapidT s ->
  shieldT (decayAll ds s) = Rmax 0 (shieldT s - Rsum ds)
  /\ rapidT (decayAll ds s) = Rmax 0 (rapidT s - Rsum ds)
  /\ (0 < shieldT (decayAll ds (set_shieldT 4 s)) <-> Rsum ds < 4)
  /\ (0 < rapidT (decayAll ds (set_rapidT 5 s)) <-> Rsum ds < 5).
Proof.
  intros Hds Hs Hr.
  destruct (decayAll_timers ds Hds s Hs Hr) as (H1 & H2 & _).
  destruct (decayAll_timers ds Hds (set_shieldT 4 s)) as (H3 & _); [simpl; lra | exact Hr|].
  destruct (decayAll_timers ds Hds (set_rapidT 5 s)) as (_ & H4 & _); [exact Hs | simpl; lra|].
  split; [exact H1|]. split; [exact H2|].
  rewrite H3, H4. simpl. split; split; intros; minmax; lra.
Qed.

(** Three frames of 16 ms after a shield pickup. *)
Lemma effects_decay_witness :
  shieldT (decayAll [0.016; 0.016; 0.016] (set_shieldT 4 ship0))
  = Rmax 0 (4 - Rsum [0.016; 0.016; 0.016]).
Proof.
  destruct (effects_decay [0.016; 0.016; 0.016] (set_shieldT 4 ship0)) as (H & _).
  - repeat constructor; lra.
  - simpl; lra.
  - simpl; lra.
  - exact H.
Defined.

(** ** What the blocks of a frame touch *)

(** The spawners push one entry on their pool and advance the stream of
    draws; nothing else changes. *)
Lemma spawnEnemy_shape (W H dpr d : R) (g : Game) :
  exists e k,
    spawnEnemy W H dpr d g
    = set_rng (fun n => rng g (k + n)%nat) (set_enemies (enemies g ++ [e]) g)
    /\ e_type e = (if Rltb (rng g 0%nat) 0.5 then drone
                   else if Rltb (rng g 0%nat) 0.8 then swoop else zig)
    /\ e_r e = rand_of (rng g 1%nat) 12 18 * dpr
    /\ e_x e = rand_of (rng g 2%nat) (e_r e + 10) (W - e_r e - 10)
    /\ e_y e = - e_r e - 20
    /\ e_vy e = rand_of (rng g 3%nat) 80 180 * dpr * (0.8 + 0.6 * Rmax 1 d)
    /\ e_hp e = (match e_type e with drone => 1 | _ => 2 end)
                + Rmax 0 (IZR (Zfloor (Rmax 1 d - 1.5)))
    /\ (e_type e = drone -> e_vx e = 0 /\ k = 4%nat)
    /\ (e_type e <> drone ->
        e_vx e = rand_of (rng g 4%nat) (-60) 60 * dpr * (0.8 + 0.4 * Rmax 1 d)
        /\ k = 5%nat).
Proof.
  unfold spawnEnemy, rand, random; simpl.
  destruct (Rltb (rng g 0%nat) 0.5); [|destruct (Rltb (rng g 0%nat) 0.8)]; simpl;
    eexists;
    [exists 4%nat | exists 5%nat | exists 5%nat];
    (split; [reflexivity|]); simpl;
    repeat split; try reflexivity; try discriminate; intros; congruence.
Qed.

Lemma spawnAsteroid_shape (W H dpr d : R) (g : Game) :
  exists a,
    spawnAsteroid W H dpr d g
    = set_rng (fun n => rng g (6 + n)%nat) (set_asteroids (asteroids g ++ [a]) g)
    /\ a_r a = rand_of (rng g 0%nat) 16 34 * dpr
    /\ a_x a = rand_of (rng g 1%nat) (a_r a + 10) (W - a_r a - 10)
    /\ a_y a = - a_r a - 30
    /\ a_vy a = rand_of (rng g 2%nat) 60 140 * dpr * (0.7 + 0.5 * Rmax 1 d)
    /\ a_vx a = rand_of (rng g 3%nat) (-40) 40 * dpr * (0.8 + 0.3 * Rmax 1 d)
    /\ a_spin a = rand_of (rng g 4%nat) (-2) 2
    /\ a_angle a = rand_of (rng g 5%nat) 0 (PI * 2).
Proof.
  unfold spawnAsteroid, rand, random; simpl.
  eexists. split; [reflexivity|]. simpl. repeat split; reflexivity.
Qed.

Lemma spawnPowerUp_shape (W dpr : R) (pos : option Vec) (g : Game) :
  exists p k,
    spawnPowerUp W dpr pos g
    = set_rng (fun n => rng g (k + n)%nat) (set_powerups (powerups g ++ [p]) g)
    /\ (1 <= k <= 4)%nat
    /\ p_kind p = kindOfDraws (rng g 0%nat) (rng g 1%nat)
    /\ p_r p = 10 * dpr /\ p_vx p = 0 /\ p_ttl p = 8
    /\ (exists u, In u [rng g 1%nat; rng g 2%nat; rng g 3%nat]
                  /\ p_vy p = rand_of u 70 110 * dpr)
    /\ (forall v, pos = Some v -> p_x p = v_x v /\ p_y p = v_y v)
    /\ (pos = None ->
        p_y p = - p_r p - 20
        /\ exists u, In u [rng g 1%nat; rng g 2%nat]
                     /\ p_x p = rand_of u (p_r p + 20) (W - p_r p - 20)).
Proof.
  rewrite kindOfDraws_spec.
  unfold spawnPowerUp, pickKind, rand, random; simpl.
  destruct (Rltb (rng g 0%nat) 0.4); [|destruct (Rltb (rng g 1%nat) 0.6)];
    destruct pos as [v|]; simpl;
    eexists;
    [exists 2%nat | exists 3%nat | exists 3%nat | exists 4%nat
     | exists 3%nat | exists 4%nat];
    (split; [reflexivity|]); simpl;
    (split; [lia|]);
    repeat split; try reflexivity; try discriminate;
    try (eexists; split; [|reflexivity]; simpl; tauto);
    try congruence.
Qed.

(** ** What the spawners make *)

Lemma rand_of_range (u lo hi : R) :
  0 <= u < 1 -> lo <= hi -> lo <= rand_of u lo hi <= hi.
Proof. intros Hu Hle; unfold rand_of; nra. Qed.

Lemma rand_of_lt (u lo hi : R) :
  0 <= u < 1 -> lo < hi -> lo <= rand_of u lo hi < hi.
Proof. intros Hu Hle; unfold rand_of; nra. Qed.

(** X12.  For draws in [0, 1), a pixel ratio [dpr > 0] and a difficulty
    of at most 6, [spawnEnemy] pushes one hostile on the pool and leaves
    the session and the other pools as they are.  The hostile has a
    radius in [12 dpr, 18 dpr); it is wholly above the canvas, 20 pixels
    over its top; it goes down, at 112 dpr per second or more; it has a
    whole number of hit points from 1 to 6, exactly 1 for a drone and 2
    for the others while the difficulty is below 2.5; a drone has no
    horizontal speed; and on a canvas wide enough for it
    ([W >= 2 r + 20]) it is at least 10 pixels inside the left and right
    edges. *)
Theorem spawnEnemy_wellformed (W H dpr d : R) (g : Game) :
  (forall n, 0 <= rng g n < 1) -> 0 < dpr -> d <= 6 ->
  exists e,
    enemies (spawnEnemy W H dpr d g) = enemies g ++ [e]
    /\ bullets (spawnEnemy W H dpr d g) = bullets g
    /\ asteroids (spawnEnemy W H dpr d g) = asteroids g
    /\ powerups (spawnEnemy W H dpr d g) = powerups g
    /\ score (spawnEnemy W H dpr d g) = score g
    /\ health (spawnEnemy W H dpr d g) = health g
    /\ 12 * dpr <= e_r e < 18 * dpr
    /\ e_y e + e_r e = -20
    /\ 112 * dpr <= e_vy e
    /\ 1 <= e_hp e <= 6
    /\ (exists n : Z, e_hp e = IZR n)
    /\ (d < 2.5 -> e_hp e = match e_type e with drone => 1 | _ => 2 end)
    /\ (e_type e = drone -> e_vx e = 0)
    /\ (2 * e_r e + 20 <= W -> 10 <= e_x e - e_r e /\ e_x e + e_r e <= W - 10).
Proof.
  intros Hu Hdpr Hd.
  destruct (spawnEnemy_shape W H dpr d g)
    as (e & k & Heq & Hty & Hr & Hx & Hy & Hvy & Hhp & Hdr & _).
  exists e. rewrite Heq. simpl.
  pose proof (rand_of_lt (rng g 1%nat) 12 18 (Hu _) ltac:(lra)) as Br.
  pose proof (rand_of_lt (rng g 3%nat) 80 180 (Hu _) ltac:(lra)) as Bv.
  assert (Hmax : 1 <= Rmax 1 d <= 6) by (minmax; lra).
  assert (Hfl : (0 <= Zfloor (Rmax 1 d - 1.5) <= 4)%Z \/ (Zfloor (Rmax 1 d - 1.5) = -1)%Z).
  { pose proof (Zfloor_bound (Rmax 1 d - 1.5)) as [Flo Fhi].
    assert (Hlo : (-1 <= Zfloor (Rmax 1 d - 1.5))%Z) by (apply (Zfloor_lub (-1)); simpl; lra).
    assert (Hhi : (Zfloor (Rmax 1 d - 1.5) < 5)%Z) by (apply lt_IZR; simpl; lra).
    lia. }
  assert (Hextra : exists n : Z, (0 <= n <= 4)%Z
                   /\ Rmax 0 (IZR (Zfloor (Rmax 1 d - 1.5))) = IZR n).
  { destruct Hfl as [[F0 F4] | Fm].
    - exists (Zfloor (Rmax 1 d - 1.5)). split; [lia|].
      apply Rmax_right. apply (IZR_le 0). exact F0.
    - exists 0%Z. split; [lia|]. rewrite Fm. apply Rmax_left. simpl. lra. }
  destruct Hextra as (n & [Hn0 Hn4] & Hn).
  apply IZR_le in Hn0. apply IZR_le in Hn4. simpl in Hn0, Hn4.
  repeat split; try reflexivity.
  - rewrite Hr. nra.
  - rewrite Hr. nra.
  - rewrite Hy. lra.
  - rewrite Hvy.
    assert (80 * dpr <= rand_of (rng g 3%nat) 80 180 * dpr) by nra.
    assert (1.4 <= 0.8 + 0.6 * Rmax 1 d) by lra.
    nra.
  - rewrite Hhp, Hn. destruct (e_type e); lra.
  - rewrite Hhp, Hn. destruct (e_type e); lra.
  - rewrite Hhp, Hn. destruct (e_type e);
      [exists (1 + n)%Z | exists (2 + n)%Z | exists (2 + n)%Z]; rewrite plus_IZR; reflexivity.
  - intros Hlow. rewrite Hhp.
    assert (Hz : Rmax 0 (IZR (Zfloor (Rmax 1 d - 1.5))) = 0).
    { assert (Zfloor (Rmax 1 d - 1.5) < 1)%Z.
      { pose proof (Zfloor_bound (Rmax 1 d - 1.5)) as [Flo _].
        apply lt_IZR. simpl. minmax; lra. }
      assert (IZR (Zfloor (Rmax 1 d - 1.5)) <= 0) by (apply (IZR_le _ 0); lia).
      apply Rmax_left. lra. }
    rewrite Hz. destruct (e_type e); lra.
  - intros Hdrone. apply Hdr. exact Hdrone.
  - pose proof (rand_of_range (rng g 2%nat) (e_r e + 10) (W - e_r e - 10) (Hu _)
                  ltac:(lra)). rewrite Hx. lra.
  - pose proof (rand_of_range (rng g 2%nat) (e_r e + 10) (W - e_r e - 10) (Hu _)
                  ltac:(lra)). rewrite Hx. lra.
Qed.

(** The first hostile of a game whose draws are all 1/2, on a canvas of
    800 x 600 at pixel ratio 1 and difficulty 1. *)
Lemma spawnEnemy_wellformed_witness :
  exists e,
    enemies (spawnEnemy 800 600 1 1 (game0 (fun _ => 1 / 2))) = [e]
    /\ 12 * 1 <= e_r e < 18 * 1 /\ e_y e + e_r e = -20 /\ 1 <= e_hp e <= 6.
Proof.
  destruct (spawnEnemy_wellformed 800 600 1 1 (game0 (fun _ => 1 / 2)))
    as (e & He & _ & _ & _ & _ & _ & Hr & Hy & _ & Hhp & _).
  - intros n; simpl; lra.
  - lra.
  - lra.
  - exists e. repeat split; try apply Hr; try apply Hhp; assumption.
Defined.

(** X13.  For draws in [0, 1), a pixel ratio [dpr > 0] and a difficulty
    of at most 6, [spawnAsteroid] pushes one obstacle and leaves the
    session and the other pools as they are.  The obstacle has a radius
    in [16 dpr, 34 dpr); it is wholly above the canvas, 30 pixels over
    its top; it goes down at 72 dpr per second or more, drifts sideways
    at 104 dpr per second at most, spins at 2 radians per second at most,
    starts at an angle in [0, 2 pi); and on a canvas wide enough for it
    it is at least 10 pixels inside the left and right edges. *)
Theorem spawnAsteroid_wellformed (W H dpr d : R) (g : Game) :
  (forall n, 0 <= rng g n < 1) -> 0 < dpr -> d <= 6 ->
  exists a,
    asteroids (spawnAsteroid W H dpr d g) = asteroids g ++ [a]
    /\ bullets (spawnAsteroid W H dpr d g) = bullets g
    /\ enemies (spawnAsteroid W H dpr d g) = enemies g
    /\ powerups (spawnAsteroid W H dpr d g) = powerups g
    /\ score (spawnAsteroid W H dpr d g) = score g
    /\ health (spawnAsteroid W H dpr d g) = health g
    /\ 16 * dpr <= a_r a < 34 * dpr
    /\ a_y a + a_r a = -30
    /\ 72 * dpr <= a_vy a
    /\ - (104 * dpr) <= a_vx a <= 104 * dpr
    /\ -2 <= a_spin a < 2
    /\ 0 <= a_angle a < 2 * PI
    /\ (2 * a_r a + 20 <= W -> 10 <= a_x a - a_r a /\ a_x a + a_r a <= W - 10).
Proof.
  intros Hu Hdpr Hd.
  destruct (spawnAsteroid_shape W H dpr d g)
    as (a & Heq & Hr & Hx & Hy & Hvy & Hvx & Hsp & Han).
  exists a. rewrite Heq. simpl.
  pose proof (rand_of_lt (rng g 0%nat) 16 34 (Hu _) ltac:(lra)) as Br.
  pose proof (rand_of_lt (rng g 2%nat) 60 140 (Hu _) ltac:(lra)) as Bv.
  pose proof (rand_of_lt (rng g 3%nat) (-40) 40 (Hu _) ltac:(lra)) as Bx.
  pose proof (rand_of_lt (rng g 4%nat) (-2) 2 (Hu _) ltac:(lra)) as Bs.
  pose proof PI_RGT_0 as Hpi.
  pose proof (rand_of_lt (rng g 5%nat) 0 (PI * 2) (Hu _) ltac:(lra)) as Ba.
  assert (Hmax : 1 <= Rmax 1 d <= 6) by (minmax; lra).
  repeat split; try reflexivity.
  - rewrite Hr. nra.
  - rewrite Hr. nra.
  - rewrite Hy. lra.
  - rewrite Hvy.
    assert (60 * dpr <= rand_of (rng g 2%nat) 60 140 * dpr) by nra.
    assert (1.2 <= 0.7 + 0.5 * Rmax 1 d) by lra.
    nra.
  - rewrite Hvx.
    assert (- (40 * dpr) <= rand_of (rng g 3%nat) (-40) 40 * dpr) by nra.
    assert (0 <= 0.8 + 0.3 * Rmax 1 d <= 2.6) by lra.
    nra.
  - rewrite Hvx.
    assert (rand_of (rng g 3%nat) (-40) 40 * dpr <= 40 * dpr) by nra.
    assert (0 <= 0.8 + 0.3 * Rmax 1 d <= 2.6) by lra.
    nra.
  - rewrite Hsp. lra.
  - rewrite Hsp. lra.
  - rewrite Han. lra.
  - rewrite Han. lra.
  - pose proof (rand_of_range (rng g 1%nat) (a_r a + 10) (W - a_r a - 10) (Hu _)
                  ltac:(lra)). rewrite Hx. lra.
  - pose proof (rand_of_range (rng g 1%nat) (a_r a + 10) (W - a_r a - 10) (Hu _)
                  ltac:(lra)). rewrite Hx. lra.
Qed.

Lemma spawnAsteroid_wellformed_witness :
  exists a,
    asteroids (spawnAsteroid 800 600 1 1 (game0 (fun _ => 1 / 2))) = [a]
    /\ 16 * 1 <= a_r a < 34 * 1 /\ a_y a + a_r a = -30 /\ 72 * 1 <= a_vy a.
Proof.
  destruct (spawnAsteroid_wellformed 800 600 1 1 (game0 (fun _ => 1 / 2)))
    as (a & Ha & _ & _ & _ & _ & _ & Hr & Hy & Hv & _).
  - intros n; simpl; lra.
  - lra.
  - lra.
  - exists a. repeat split; try apply Hr; assumption.
Defined.

(** X14.  For draws in [0, 1) and [dpr > 0], [spawnPowerUp] pushes one
    pickup and leaves the session and the other pools as they are.  The
    pickup has radius [10 dpr], lifetime 8 s, no horizontal speed, and
    goes down at a speed in [70 dpr, 110 dpr).  With a position given
    (the site of a destroyed hostile) it is there; with none it is
    wholly above the canvas, 20 pixels over its top, and on a canvas
    wide enough ([W >= 2 r + 40]) at least 20 pixels inside the left and
    right edges. *)
Theorem spawnPowerUp_wellformed (W dpr : R) (pos : option Vec) (g : Game) :
  (forall n, 0 <= rng g n < 1) -> 0 < dpr ->
  exists p,
    powerups (spawnPowerUp W dpr pos g) = powerups g ++ [p]
    /\ bullets (spawnPowerUp W dpr pos g) = bullets g
    /\ enemies (spawnPowerUp W dpr pos g) = enemies g
    /\ asteroids (spawnPowerUp W dpr pos g) = asteroids g
    /\ score (spawnPowerUp W dpr pos g) = score g
    /\ health (spawnPowerUp W dpr pos g) = health g
    /\ p_r p = 10 * dpr /\ p_ttl p = 8 /\ p_vx p = 0
    /\ 70 * dpr <= p_vy p < 110 * dpr
    /\ (forall v, pos = Some v -> p_x p = v_x v /\ p_y p = v_y v)
    /\ (pos = None ->
        p_y p + p_r p = -20
        /\ (2 * p_r p + 40 <= W ->
            20 <= p_x p - p_r p /\ p_x p + p_r p <= W - 20)).
Proof.
  intros Hu Hdpr.
  destruct (spawnPowerUp_shape W dpr pos g)
    as (p & k & Heq & _ & _ & Hr & Hvx & Httl & (u & Hin & Hvy) & Hpos & Hnone).
  exists p. rewrite Heq. simpl.
  assert (Hall : forall v, In v [rng g 1%nat; rng g 2%nat; rng g 3%nat] -> 0 <= v < 1).
  { intros v [<- | [<- | [<- | []]]]; apply Hu. }
  pose proof (rand_of_lt u 70 110 (Hall u Hin) ltac:(lra)) as Bv.
  split; [reflexivity|]. split; [reflexivity|]. split; [reflexivity|].
  split; [reflexivity|]. split; [reflexivity|]. split; [reflexivity|].
  split; [exact Hr|]. split; [exact Httl|]. split; [exact Hvx|].
  split; [rewrite Hvy; nra|]. split; [exact Hpos|].
  intros Hn. destruct (Hnone Hn) as (Hy & u' & Hin' & Hx).
  split; [rewrite Hy; lra|].
  intros Hwide.
  assert (Hu' : 0 <= u' < 1).
  { apply Hall. destruct Hin' as [<- | [<- | []]]; simpl; tauto. }
  pose proof (rand_of_range u' (p_r p + 20) (W - p_r p - 20) Hu' ltac:(lra)).
  rewrite Hx. lra.
Qed.

Lemma spawnPowerUp_wellformed_witness :
  exists p,
    powerups (spawnPowerUp 800 1 (Some (mkVec 300 200)) (game0 (fun _ => 1 / 2))) = [p]
    /\ p_x p = 300 /\ p_y p = 200 /\ p_ttl p = 8 /\ 70 * 1 <= p_vy p < 110 * 1.
Proof.
  destruct (spawnPowerUp_wellformed 800 1 (Some (mkVec 300 200)) (game0 (fun _ => 1 / 2)))
    as (p & Hp & _ & _ & _ & _ & _ & _ & Ht & _ & Hv & Hpos & _).
  - intros n; simpl; lra.
  - lra.
  - exists p. destruct (Hpos _ eq_refl) as [Hx Hy].
    repeat split; try apply Hv; assumption.
Defined.

(** ** Ramming *)

Lemma damage_unshielded (dmg : R) (g : Game) :
  shieldT (ship g) <= 0 ->
  health (damage dmg g) = Rmax 0 (health g - dmg)
  /\ ship (damage dmg g) = ship g
  /\ sfx (damage dmg g) = sfx g ++ [SfxHit].
Proof.
  intros Hs. unfold damage. rewrite Rltb_false by exact Hs. simpl. auto.
Qed.

Lemma shipVsEnemies_unshielded (H : R) (es : list Enemy) :
  forall g, shieldT (ship g) <= 0 -> 0 <= health g ->
    fst (shipVsEnemies H es g)
    = map (fun e => if rammedBy (ship g) e then markEnemy H e else e) es
    /\ health (snd (shipVsEnemies H es g))
       = Rmax 0 (health g - 20 * INR (countIf (rammedBy (ship g)) es))
    /\ ship (snd (shipVsEnemies H es g)) = ship g
    /\ sfx (snd (shipVsEnemies H es g))
       = sfx g ++ repeat SfxHit (countIf (rammedBy (ship g)) es).
Proof.
  unfold countIf.
  induction es as [|e es IH]; intros g Hs Hh.
  - simpl. rewrite Rmult_0_r, Rminus_0_r, app_nil_r. repeat split; auto.
    rewrite Rmax_right; auto.
  - cbn [shipVsEnemies map filter]. fold (rammedBy (ship g) e).
    destruct (rammedBy (ship g) e) eqn:Hram.
    + destruct (damage_unshielded 20 g Hs) as (Dh & Ds & Dx).
      destruct (IH (damage 20 g)) as (I1 & I2 & I3 & I4).
      { rewrite Ds; exact Hs. }
      { rewrite Dh. apply Rmax_l. }
      destruct (shipVsEnemies H es (damage 20 g)) as [es2 g2].
      cbn [fst snd length] in *. rewrite Ds in *. rewrite I1, I2, I3, I4, Dh, Dx.
      rewrite S_INR. rewrite <- app_assoc. simpl.
      repeat split; auto.
      pose proof (pos_INR (length (filter (rammedBy (ship g)) es))).
      minmax; lra.
    + destruct (IH g Hs Hh) as (I1 & I2 & I3 & I4).
      destruct (shipVsEnemies H es g) as [es2 g2].
      cbn [fst snd] in *. rewrite I1, I2, I3, I4. repeat split; auto.
Qed.

Lemma shipVsAsteroids_unshielded (H : R) (l : list Asteroid) :
  forall g, shieldT (ship g) <= 0 -> 0 <= health g ->
    fst (shipVsAsteroids H l g)
    = map (fun a => if struckBy (ship g) a then markAsteroid H a else a) l
    /\ health (snd (shipVsAsteroids H l g))
       = Rmax 0 (health g - 15 * INR (countIf (struckBy (ship g)) l))
    /\ ship (snd (shipVsAsteroids H l g)) = ship g
    /\ sfx (snd (shipVsAsteroids H l g))
       = sfx g ++ repeat SfxHit (countIf (struckBy (ship g)) l).
Proof.
  unfold countIf.
  induction l as [|a l IH]; intros g Hs Hh.
  - simpl. rewrite Rmult_0_r, Rminus_0_r, app_nil_r. repeat split; auto.
    rewrite Rmax_right; auto.
  - cbn [shipVsAsteroids map filter]. fold (struckBy (ship g) a).
    destruct (struckBy (ship g) a) eqn:Hram.
    + destruct (damage_unshielded 15 g Hs) as (Dh & Ds & Dx).
      destruct (IH (damage 15 g)) as (I1 & I2 & I3 & I4).
      { rewrite Ds; exact Hs. }
      { rewrite Dh. apply Rmax_l. }
      destruct (shipVsAsteroids H l (damage 15 g)) as [l2 g2].
      cbn [fst snd length] in *. rewrite Ds in *. rewrite I1, I2, I3, I4, Dh, Dx.
      rewrite S_INR. rewrite <- app_assoc. simpl.
      repeat split; auto.
      pose proof (pos_INR (length (filter (struckBy (ship g)) l))).
      minmax; lra.
    + destruct (IH g Hs Hh) as (I1 & I2 & I3 & I4).
      destruct (shipVsAsteroids H l g) as [l2 g2].
      cbn [fst snd] in *. rewrite I1, I2, I3, I4. repeat split; auto.
Qed.

(** X15.  Without a shield and with a health that is not negative, the
    loop of the ship over the hostiles costs 20 of health for each
    hostile that the ship overlaps, down to 0, plays the hit sound once
    for each, moves exactly these hostiles below the canvas ([y = H +
    100]) and leaves the others untouched; the loop over the obstacles
    does the same with 15 of health, the ship being 2 larger. *)
Theorem ramming_costs (H : R) (es : list Enemy) (l : list Asteroid) (g : Game) :
  shieldT (ship g) <= 0 -> 0 <= health g ->
  (fst (shipVsEnemies H es g)
     = map (fun e => if rammedBy (ship g) e then markEnemy H e else e) es
   /\ health (snd (shipVsEnemies H es g))
      = Rmax 0 (health g - 20 * INR (countIf (rammedBy (ship g)) es))
   /\ sfx (snd (shipVsEnemies H es g))
      = sfx g ++ repeat SfxHit (countIf (rammedBy (ship g)) es))
  /\ (fst (shipVsAsteroids H l g)
        = map (fun a => if struckBy (ship g) a then markAsteroid H a else a) l
      /\ health (snd (shipVsAsteroids H l g))
         = Rmax 0 (health g - 15 * INR (countIf (struckBy (ship g)) l))
      /\ sfx (snd (shipVsAsteroids H l g))
         = sfx g ++ repeat SfxHit (countIf (struckBy (ship g)) l)).
Proof.
  intros Hs Hh.
  destruct (shipVsEnemies_unshielded H es g Hs Hh) as (E1 & E2 & _ & E4).
  destruct (shipVsAsteroids_unshielded H l g Hs Hh) as (A1 & A2 & _ & A4).
  repeat split; assumption.
Qed.

(** The ship of the initial state under two hostiles, a third one away. *)
Lemma ramming_costs_witness :
  let es := [mkEnemy 200 300 0 140 12 1 drone; mkEnemy 700 50 0 140 12 1 drone;
             mkEnemy 205 310 0 140 15 2 zig] in
  health (snd (shipVsEnemies 600 es (game0 (fun _ => 0))))
  = Rmax 0 (100 - 20 * INR (countIf (rammedBy ship0) es)).
Proof.
  intros es.
  destruct (ramming_costs 600 es [] (game0 (fun _ => 0))) as [(_ & Hh & _) _].
  - simpl; lra.
  - simpl; lra.
  - exact Hh.
Defined.

(** ** Removal by the updates *)

(** X16.  In a frame whose elapsed time is not negative, the updates drop
    the entries that the collisions of the frame before marked, wherever
    they are in their pool and without touching the others: a bullet
    whose lifetime is 0 or less; a pickup whose lifetime is 0 or less; a
    hostile at [y >= H + 100] of radius below 50 that does not go up; an
    obstacle at [y >= H + 100] of radius below 40 that does not go up.
    And whatever the elapsed time, a bullet that an update keeps has a
    positive lifetime, a pickup too, and a hostile or an obstacle that it
    keeps has its top edge no more than 50, or 60, below the canvas. *)
Theorem updates_drop_marked (H t dt : R) :
  0 <= dt ->
  (forall bs1 b bs2, b_ttl b <= 0 ->
     updateBullets dt (bs1 ++ b :: bs2) = updateBullets dt (bs1 ++ bs2))
  /\ (forall l1 p l2, p_ttl p <= 0 ->
        updatePowerUps H dt (l1 ++ p :: l2) = updatePowerUps H dt (l1 ++ l2))
  /\ (forall es1 e es2, H + 100 <= e_y e -> e_r e < 50 -> 0 <= e_vy e ->
        updateEnemies H t dt (es1 ++ e :: es2) = updateEnemies H t dt (es1 ++ es2))
  /\ (forall l1 a l2, H + 100 <= a_y a -> a_r a < 40 -> 0 <= a_vy a ->
        updateAsteroids H dt (l1 ++ a :: l2) = updateAsteroids H dt (l1 ++ l2))
  /\ (forall dt' bs, Forall (fun b => 0 < b_ttl b) (updateBullets dt' bs))
  /\ (forall dt' l, Forall (fun p => 0 < p_ttl p) (updatePowerUps H dt' l))
  /\ (forall dt' es, Forall (fun e => e_y e - e_r e <= H + 50) (updateEnemies H t dt' es))
  /\ (forall dt' l, Forall (fun a => a_y a - a_r a <= H + 60) (updateAsteroids H dt' l)).
Proof.
  intros Hdt.
  split; [|split; [|split; [|split; [|split; [|split; [|split]]]]]].
  - intros bs1 b bs2 Hb. unfold updateBullets.
    rewrite !map_app, !filter_app, !map_app. cbn [map filter].
    match goal with |- context [if bulletAlive ?x then _ else _] =>
      replace (bulletAlive x) with false; [reflexivity|] end.
    unfold bulletAlive. cbn [b_ttl]. rewrite Rltb_false by lra. reflexivity.
  - intros l1 p l2 Hp. unfold updatePowerUps.
    rewrite !map_app, !filter_app. cbn [map filter].
    match goal with |- context [if negb (powerUpGone H ?x) then _ else _] =>
      replace (powerUpGone H x) with true; [reflexivity|] end.
    unfold powerUpGone, stepPowerUp. cbn [p_ttl]. rewrite Rleb_true by lra. reflexivity.
  - intros es1 e es2 Hy Hr Hv. unfold updateEnemies.
    rewrite !map_app, !filter_app. cbn [map filter].
    match goal with |- context [if negb (enemyGone H ?x) then _ else _] =>
      replace (enemyGone H x) with true; [reflexivity|] end.
    unfold enemyGone, stepEnemy. cbn [e_y e_r]. rewrite Rltb_true by nra. reflexivity.
  - intros l1 a l2 Hy Hr Hv. unfold updateAsteroids.
    rewrite !map_app, !filter_app. cbn [map filter].
    match goal with |- context [if negb (asteroidGone H ?x) then _ else _] =>
      replace (asteroidGone H x) with true; [reflexivity|] end.
    unfold asteroidGone, stepAsteroid. cbn [a_y a_r]. rewrite Rltb_true by nra. reflexivity.
  - intros dt' bs. unfold updateBullets. apply Forall_forall. intros b Hin.
    apply in_map_iff in Hin. destruct Hin as (b' & <- & Hin).
    apply filter_In in Hin. destruct Hin as [_ Hal].
    unfold bulletAlive in Hal. apply andb_prop in Hal. destruct Hal as [Hal _].
    apply Rltb_true_iff in Hal. exact Hal.
  - intros dt' l. unfold updatePowerUps. apply Forall_forall. intros p Hin.
    apply filter_In in Hin. destruct Hin as [_ Hal].
    unfold powerUpGone in Hal. apply negb_true_iff, orb_false_elim in Hal.
    destruct Hal as [Hal _]. apply Rleb_false_iff in Hal. exact Hal.
  - intros dt' es. unfold updateEnemies. apply Forall_forall. intros e Hin.
    apply filter_In in Hin. destruct Hin as [_ Hal].
    unfold enemyGone in Hal. apply negb_true_iff, Rltb_false_iff in Hal. exact Hal.
  - intros dt' l. unfold updateAsteroids. apply Forall_forall. intros a Hin.
    apply filter_In in Hin. destruct Hin as [_ Hal].
    unfold asteroidGone in Hal. apply negb_true_iff, Rltb_false_iff in Hal. exact Hal.
Qed.

(** A bullet that hit a hostile in the frame before, between two bullets
    in flight. *)
Lemma updates_drop_marked_witness :
  updateBullets 0.016
    [mkBullet 100 400 0 (-900) 4 1.5 "#00fff0"; mkBullet 100 200 0 (-900) 4 0 "#00fff0";
     mkBullet 300 100 0 (-900) 4 1 "#00fff0"]
  = updateBullets 0.016
      [mkBullet 100 400 0 (-900) 4 1.5 "#00fff0"; mkBullet 300 100 0 (-900) 4 1 "#00fff0"].
Proof.
  destruct (updates_drop_marked 600 0 0.016) as (Hb & _); [lra|].
  apply (Hb [mkBullet 100 400 0 (-900) 4 1.5 "#00fff0"]
            (mkBullet 100 200 0 (-900) 4 0 "#00fff0")
            [mkBullet 300 100 0 (-900) 4 1 "#00fff0"]).
  simpl; lra.
Defined.

(** ** The frame, block by block *)

Lemma loop_split (W H dpr t : R) (g : Game) :
  loop W H dpr t g
  = if running g then endFrame g (collisions W H dpr (preCollision W H dpr t g))
    else set_lastTime (Some t) g.
Proof. unfold loop. destruct (running g); reflexivity. Qed.

Lemma shooting_fields (dpr : R) (auto : bool) (g : Game) :
  score (shooting dpr auto g) = score g
  /\ enemies (shooting dpr auto g) = enemies g
  /\ asteroids (shooting dpr auto g) = asteroids g
  /\ powerups (shooting dpr auto g) = powerups g
  /\ autofire (shooting dpr auto g) = autofire g
  /\ rng (shooting dpr auto g) = rng g
  /\ exists bs,
       bullets (shooting dpr auto g) = bullets g ++ bs
       /\ (length bs <= 3)%nat
       /\ (auto = false -> bs = [])
       /\ (0 < t_shoot (timers g) -> bs = [])
       /\ Forall (fun b => b_ttl b = 2 /\ b_r b = 4 * dpr /\ (0 < dpr -> b_vy b < 0)) bs.
Proof.
  unfold shooting.
  destruct auto; simpl.
  - destruct (Rleb (t_shoot (timers g)) 0) eqn:Hc.
    + destruct (Rltb 0 (rapidT (ship g))); simpl.
      * repeat split; auto.
        exists [mkBullet (s_x (ship g)) (s_y (ship g) - 14 * dpr) 0
                  (-900 * dpr) (4 * dpr) 2 "#00fff0";
                mkBullet (s_x (ship g) - 8 * dpr) (s_y (ship g) - 10 * dpr) (-200 * dpr)
                  (-820 * dpr) (4 * dpr) 2 "#ff00e6";
                mkBullet (s_x (ship g) + 8 * dpr) (s_y (ship g) - 10 * dpr) (200 * dpr)
                  (-820 * dpr) (4 * dpr) 2 "#ff00e6"].
        split; [rewrite <- !app_assoc; reflexivity|].
        simpl. split; [lia|]. split; [discriminate|]. split.
        -- intros Hpos. apply Rleb_true_iff in Hc. lra.
        -- repeat constructor; simpl; intros; lra.
      * repeat split; auto. exists [mkBullet (s_x (ship g)) (s_y (ship g) - 14 * dpr) 0
                                      (-900 * dpr) (4 * dpr) 2 "#00fff0"].
        split; [reflexivity|]. simpl. split; [lia|]. split; [discriminate|]. split.
        -- intros Hpos. apply Rleb_true_iff in Hc. lra.
        -- repeat constructor; simpl; intros; lra.
    + repeat split; auto. exists []. rewrite app_nil_r. simpl.
      repeat split; auto; try lia.
  - repeat split; auto. exists []. rewrite app_nil_r. simpl.
    repeat split; auto; try lia.
Qed.

Ltac use_shapes :=
  repeat match goal with
         | |- context [spawnEnemy ?W ?H ?dpr ?d ?g] =>
             let e := fresh "e" in let k := fresh "k" in let He := fresh "He" in
             destruct (spawnEnemy_shape W H dpr d g) as (e & k & He & _);
             rewrite He; clear He
         | |- context [spawnAsteroid ?W ?H ?dpr ?d ?g] =>
             let a := fresh "a" in let Ha := fresh "Ha" in
             destruct (spawnAsteroid_shape W H dpr d g) as (a & Ha & _);
             rewrite Ha; clear Ha
         | |- context [spawnPowerUp ?W ?dpr ?pos ?g] =>
             let p := fresh "p" in let k := fresh "k" in let Hp := fresh "Hp" in
             destruct (spawnPowerUp_shape W dpr pos g) as (p & k & Hp & _);
             rewrite Hp; clear Hp
         end.

Lemma spawning_fields (W H dpr d : R) (g : Game) :
  score (spawning W H dpr d g) = score g
  /\ bullets (spawning W H dpr d g) = bullets g
  /\ autofire (spawning W H dpr d g) = autofire g
  /\ (exists es, enemies (spawning W H dpr d g) = enemies g ++ es
                 /\ (length es <= 1)%nat /\ (0 < t_enemy (timers g) -> es = []))
  /\ (exists l, asteroids (spawning W H dpr d g) = asteroids g ++ l
                /\ (length l <= 1)%nat /\ (0 < t_asteroid (timers g) -> l = []))
  /\ (exists ps, powerups (spawning W H dpr d g) = powerups g ++ ps
                 /\ (length ps <= 1)%nat /\ (0 < t_power (timers g) -> ps = [])).
Proof.
  unfold spawning.
  destruct (Rleb (t_enemy (timers g)) 0) eqn:T1;
    [apply Rleb_true_iff in T1 | apply Rleb_false_iff in T1];
    use_shapes; unfold random, rand; cbn -[Rleb];
    (destruct (Rleb (t_asteroid (timers g)) 0) eqn:T2;
     [apply Rleb_true_iff in T2 | apply Rleb_false_iff in T2]);
    use_shapes; unfold random, rand; cbn -[Rleb];
    (destruct (Rleb (t_power (timers g)) 0) eqn:T3;
     [apply Rleb_true_iff in T3 | apply Rleb_false_iff in T3]);
    use_shapes; unfold random, rand; cbn -[Rleb];
    (split; [reflexivity|]); (split; [reflexivity|]); (split; [reflexivity|]);
    (split; [|split]);
    first [ eexists; split; [reflexivity|]; simpl; split; [lia|]; intros; lra
          | exists []; rewrite app_nil_r; split; [reflexivity|]; simpl; split; [lia|];
            reflexivity ].
Qed.

Lemma endFrame_fields (g0 g : Game) :
  score (endFrame g0 g) = score g
  /\ health (endFrame g0 g) = health g
  /\ ship (endFrame g0 g) = ship g
  /\ bullets (endFrame g0 g) = bullets g
  /\ enemies (endFrame g0 g) = enemies g
  /\ asteroids (endFrame g0 g) = asteroids g
  /\ powerups (endFrame g0 g) = powerups g
  /\ lastTime (endFrame g0 g) = lastTime g
  /\ autofire (endFrame g0 g) = autofire g.
Proof.
  unfold endFrame. destruct (Rleb (health g0) 0 && negb (gameOver g0));
    repeat split; reflexivity.
Qed.

(** ** The score *)

Lemma spawnPowerUp_score (W dpr : R) (pos : option Vec) (g : Game) :
  score (spawnPowerUp W dpr pos g) = score g.
Proof. use_shapes. reflexivity. Qed.

Lemma damage_score (dmg : R) (g : Game) : score (damage dmg g) = score g.
Proof. unfold damage; destruct (Rltb 0 (shieldT (ship g))); reflexivity. Qed.

(** What holds of the score and is kept by the two awards (50 for a
    hostile, 25 for a pickup) is kept by the collisions and by a frame. *)
Section ScoreInv.
Variable Q : R -> Prop.
Hypothesis Q50 : forall s, Q s -> Q (s + 50).
Hypothesis Q25 : forall s, Q s -> Q (s + 25).

Lemma bulletVsEnemies_score (cw ch dpr : R) (es : list Enemy) :
  forall b g, Q (score g) -> Q (score (snd (bulletVsEnemies cw ch dpr b es g))).
Proof.
  induction es as [|e es IH]; intros b g Hq; simpl; [exact Hq|].
  destruct (hit _ _ _ _ _ _).
  - destruct (Rleb (e_hp e - 1) 0).
    + match goal with
      | |- context [bulletVsEnemies cw ch dpr ?b' es ?g'] =>
          specialize (IH b' g'); destruct (bulletVsEnemies cw ch dpr b' es g') as [[b2 es2] g5]
      end.
      simpl in *. apply IH.
      destruct (Rltb (rng g 0%nat) 0.04); simpl; rewrite ?spawnPowerUp_score; simpl;
        apply Q50; exact Hq.
    + specialize (IH (mkBullet (b_x b) (b_y b) (b_vx b) (b_vy b) (b_r b) 0 (b_color b))
                     (play SfxHit g) Hq).
      destruct (bulletVsEnemies cw ch dpr _ es (play SfxHit g)) as [[b2 es2] g5].
      exact IH.
  - specialize (IH b g Hq).
    destruct (bulletVsEnemies cw ch dpr b es g) as [[b2 es2] g5]. exact IH.
Qed.

Lemma bulletsVsEnemies_score (cw ch dpr : R) (bs : list Bullet) :
  forall es g, Q (score g) -> Q (score (snd (bulletsVsEnemies cw ch dpr bs es g))).
Proof.
  induction bs as [|b bs IH]; intros es g Hq; simpl; [exact Hq|].
  pose proof (bulletVsEnemies_score cw ch dpr es b g Hq) as H1.
  destruct (bulletVsEnemies cw ch dpr b es g) as [[b1 es1] g1].
  specialize (IH es1 g1 H1).
  destruct (bulletsVsEnemies cw ch dpr bs es1 g1) as [[bs2 es2] g2].
  exact IH.
Qed.

Lemma collisions_score (W H dpr : R) (g : Game) :
  Q (score g) -> Q (score (collisions W H dpr g)).
Proof.
  intros Hq. unfold collisions.
  pose proof (bulletsVsEnemies_score W H dpr (bullets g) (enemies g) g Hq) as H1.
  destruct (bulletsVsEnemies W H dpr (bullets g) (enemies g) g) as [[bs es] g1].
  simpl in H1.
  set (g2 := set_enemies es (set_bullets bs g1)).
  assert (Pd : forall dmg g', 0 <= dmg -> Q (score g') -> Q (score (damage dmg g'))).
  { intros dmg g' _ Hg'. rewrite damage_score. exact Hg'. }
  assert (Pp : forall kind g', Q (score g') -> Q (score (applyPower kind g'))).
  { intros kind g' Hg'. destruct kind; simpl; apply Q25; exact Hg'. }
  pose proof (shipVsEnemies_preserves (fun g' => Q (score g')) Pd H (enemies g2) g2 H1) as H3.
  destruct (shipVsEnemies H (enemies g2) g2) as [es' g3]; simpl in H3.
  set (g4 := set_enemies es' g3).
  pose proof (shipVsAsteroids_preserves (fun g' => Q (score g')) Pd H (asteroids g4) g4 H3) as H5.
  destruct (shipVsAsteroids H (asteroids g4) g4) as [l g5]; simpl in H5.
  set (g6 := set_asteroids l g5).
  pose proof (shipVsPowerUps_preserves (fun g' => Q (score g')) Pp (powerups g6) g6 H5) as H7.
  destruct (shipVsPowerUps (powerups g6) g6) as [ps g7]; simpl in H7.
  exact H7.
Qed.

Lemma preCollision_score (W H dpr t : R) (g : Game) :
  score (preCollision W H dpr t g) = score g.
Proof.
  unfold preCollision.
  set (g3 := set_timers _ (set_ship _ (set_lastTime (Some t) g))).
  set (g4 := shooting dpr (autofire g) g3).
  set (g5 := spawning W H dpr (difficulty (score g)) g4).
  change (score g5 = score g).
  destruct (spawning_fields W H dpr (difficulty (score g)) g4) as (Hs & _).
  destruct (shooting_fields dpr (autofire g) g3) as (Hs' & _).
  fold g5 in Hs. fold g4 in Hs'. rewrite Hs, Hs'. reflexivity.
Qed.

Lemma loop_score (W H dpr t : R) (g : Game) :
  Q (score g) -> Q (score (loop W H dpr t g)).
Proof.
  intros Hq. rewrite loop_split. destruct (running g); [|exact Hq].
  destruct (endFrame_fields g (collisions W H dpr (preCollision W H dpr t g))) as (Hs & _).
  rewrite Hs.
  apply collisions_score. rewrite preCollision_score. exact Hq.
Qed.
End ScoreInv.

Lemma runOps_score (Q : R -> Prop) :
  (forall s, Q s -> Q (s + 50)) -> (forall s, Q s -> Q (s + 25)) ->
  forall ops g,
    (Q 0 \/ Forall noRestart ops) -> Q (score g) -> Q (score (runOps ops g)).
Proof.
  intros Q50 Q25. unfold runOps.
  induction ops as [|op ops IH]; intros g Hr Hq; simpl; [exact Hq|].
  apply IH.
  - destruct Hr as [H0 | Hn]; [left; exact H0 | right; inversion Hn; assumption].
  - destruct op as [dmg | kind | | W H dpr t]; simpl.
    + rewrite damage_score. exact Hq.
    + destruct kind; simpl; apply Q25; exact Hq.
    + destruct Hr as [H0 | Hn]; [exact H0 | inversion Hn; contradiction].
    + apply loop_score; assumption.
Qed.

(** X17.  The score never goes down in a frame, nor along any run of
    frames, damages and pickups without a restart; along every run it
    stays non-negative; and from the initial state it is always a
    multiple of 25, hence a whole number. *)
Theorem score_grows :
  (forall W H dpr t g, score g <= score (loop W H dpr t g))
  /\ (forall ops g, Forall noRestart ops -> score g <= score (runOps ops g))
  /\ (forall ops g, 0 <= score g -> 0 <= score (runOps ops g))
  /\ (forall ops draws, exists k : nat, score (runOps ops (game0 draws)) = 25 * INR k).
Proof.
  split; [|split; [|split]].
  - intros W H dpr t g.
    apply (loop_score (fun s => score g <= s)); intros; lra.
  - intros ops g Hn.
    apply (runOps_score (fun s => score g <= s)); try (intros; lra).
    right; exact Hn.
  - intros ops g H0.
    apply (runOps_score (fun s => 0 <= s)); try (intros; lra); left; lra.
  - intros ops draws.
    apply (runOps_score (fun s => exists k : nat, s = 25 * INR k)).
    + intros s (k & ->). exists (k + 2)%nat. rewrite plus_INR. simpl. lra.
    + intros s (k & ->). exists (k + 1)%nat. rewrite plus_INR. simpl. lra.
    + left. exists 0%nat. simpl. lra.
    + exists 0%nat. simpl. lra.
Qed.

(** A pickup, a hit and a frame from the initial state. *)
Lemma score_grows_witness :
  let ops := [OpPower heal; OpDamage 20; OpFrame 800 600 1 16] in
  score (game0 (fun _ => 0)) <= score (runOps ops (game0 (fun _ => 0))).
Proof.
  intros ops.
  destruct score_grows as (_ & Hm & _).
  apply Hm. repeat constructor.
Defined.

(** ** Running, paused, over *)

Lemma preCollision_core (W H dpr t : R) (g : Game) :
  health (preCollision W H dpr t g) = health g
  /\ running (preCollision W H dpr t g) = running g
  /\ gameOver (preCollision W H dpr t g) = gameOver g
  /\ lastTime (preCollision W H dpr t g) = Some t
  /\ ship (preCollision W H dpr t g)
     = decayEffects (frame_dt (lastTime g) t)
         (moveShip W H dpr (frame_dt (lastTime g) t) (target g) (ship g)).
Proof.
  unfold preCollision.
  set (g3 := set_timers _ (set_ship _ (set_lastTime (Some t) g))).
  set (g4 := shooting dpr (autofire g) g3).
  set (g5 := spawning W H dpr (difficulty (score g)) g4).
  pose proof (shooting_core dpr (autofire g) g3) as (A1 & A2 & A3 & A4 & A5).
  pose proof (spawning_core W H dpr (difficulty (score g)) g4) as (B1 & B2 & B3 & B4 & B5).
  fold g4 in A1, A2, A3, A4, A5. fold g5 in B1, B2, B3, B4, B5.
  cbn [health running gameOver lastTime ship set_ship set_powerups set_asteroids
       set_enemies set_bullets].
  rewrite B1, B2, B3, B4, B5, A1, A2, A3, A4, A5.
  repeat split; reflexivity.
Qed.







(** ** Effect timers along the frames *)

Lemma collisions_effectsOk (W H dpr : R) (g : Game) :
  effectsOk g -> effectsOk (collisions W H dpr g).
Proof.
  apply collisions_preserves.
  - intros dmg g' _ H1. unfold effectsOk. rewrite damage_ship. exact H1.
  - intros kind g' H1. unfold effectsOk in *. destruct kind; simpl; lra.
  - intros g1 g2 (_ & Hs & _) H1. unfold effectsOk. rewrite Hs. exact H1.
Qed.

Lemma loop_effects (W H dpr t : R) (g : Game) :
  (running g = true ->
     0 <= shieldT (ship (loop W H dpr t g)) /\ 0 <= rapidT (ship (loop W H dpr t g)))
  /\ (effectsOk g -> ascendingFrom (lastTime g) [t] -> effectsOk (loop W H dpr t g)).
Proof.
  rewrite loop_split.
  destruct (endFrame_fields g (collisions W H dpr (preCollision W H dpr t g)))
    as (_ & _ & Es & _).
  destruct (preCollision_core W H dpr t g) as (_ & _ & _ & _ & Ps).
  split.
  - intros Hrun. rewrite Hrun, Es.
    assert (Hnn : (fun g' => 0 <= shieldT (ship g') /\ 0 <= rapidT (ship g'))
                    (collisions W H dpr (preCollision W H dpr t g))).
    { apply collisions_preserves.
      - intros dmg g' _ H1. rewrite damage_ship. exact H1.
      - intros kind g' H1. destruct kind; simpl; lra.
      - intros g1 g2 (_ & Hs & _) H1. rewrite Hs. exact H1.
      - rewrite Ps. simpl. split; apply Rmax_l. }
    exact Hnn.
  - intros Hok [Hasc _]. destruct (running g); [|exact Hok].
    unfold effectsOk. rewrite Es. apply collisions_effectsOk.
    unfold effectsOk. rewrite Ps. simpl.
    assert (Hdt : 0 <= frame_dt (lastTime g) t).
    { unfold frame_dt. destruct (lastTime g) as [p|]; minmax; lra. }
    destruct Hok as [[S0 S4] [R0 R5]].
    unfold moveShip. destruct (moveToward dpr (frame_dt (lastTime g) t) (target g) (ship g)).
    simpl. split; minmax; lra.
Qed.

(** X19.  After every frame that runs, the shield and rapid-fire timers
    are not negative.  Along frames whose timestamps do not go back, from
    a state where the shield timer is within [0, 4] and the rapid-fire
    timer within [0, 5] (such as the initial one), they stay within
    these bounds: a pickup never stacks over 4 s of shield or 5 s of
    rapid fire. *)
Theorem effects_bounded (W H dpr : R) (ts : list R) (g : Game) :
  effectsOk g -> ascendingFrom (lastTime g) ts ->
  effectsOk (runFrames W H dpr ts g)
  /\ (forall t, running g = true ->
        0 <= shieldT (ship (loop W H dpr t g)) /\ 0 <= rapidT (ship (loop W H dpr t g))).
Proof.
  intros Hok Hasc. split.
  - unfold runFrames. revert g Hok Hasc.
    induction ts as [|t ts IH]; intros g Hok Hasc; simpl; [exact Hok|].
    destruct Hasc as [H1 H2]. apply IH.
    + apply (loop_effects W H dpr t g); [exact Hok | split; [exact H1 | exact I]].
    + rewrite loop_lastTime. exact H2.
  - intros t Hrun. apply (loop_effects W H dpr t g). exact Hrun.
Qed.

Lemma effects_bounded_witness :
  effectsOk (runFrames 800 600 1 [0; 16; 33; 5000] (game0 (fun _ => 1 / 2))).
Proof.
  destruct (effects_bounded 800 600 1 [0; 16; 33; 5000] (game0 (fun _ => 1 / 2)))
    as [H _].
  - unfold effectsOk; simpl; lra.
  - simpl; repeat split; lra.
  - exact H.
Defined.

(** ** The sizes of the pools *)










(** ** A bullet over the hostiles *)

Lemma bulletVsEnemies_pass (cw ch dpr : R) (es : list Enemy) :
  forall b g,
    snd (fst (bulletVsEnemies cw ch dpr b es g))
    = map (fun e => if bulletHits b e then struck ch e else e) es
    /\ score (snd (bulletVsEnemies cw ch dpr b es g))
       = score g + 50 * INR (countIf (killedBy b) es)
    /\ sfx (snd (bulletVsEnemies cw ch dpr b es g))
       = sfx g ++ map (fun e => if Rleb (e_hp e - 1) 0 then SfxBoom else SfxHit)
                      (filter (bulletHits b) es)
    /\ b_ttl (fst (fst (bulletVsEnemies cw ch dpr b es g)))
       = (if existsb (bulletHits b) es then 0 else b_ttl b)
    /\ b_x (fst (fst (bulletVsEnemies cw ch dpr b es g))) = b_x b
    /\ b_y (fst (fst (bulletVsEnemies cw ch dpr b es g))) = b_y b
    /\ b_r (fst (fst (bulletVsEnemies cw ch dpr b es g))) = b_r b.
Proof.
  unfold countIf.
  induction es as [|e es IH]; intros b g.
  - simpl. rewrite Rmult_0_r, Rplus_0_r, app_nil_r. repeat split; reflexivity.
  - cbn [bulletVsEnemies map filter existsb random]. unfold killedBy at 1.
    fold (bulletHits b e). destruct (bulletHits b e) eqn:Hh; cbn [andb orb].
    + unfold struck at 1. destruct (Rleb (e_hp e - 1) 0) eqn:Hk.
      * match goal with
        | |- context [bulletVsEnemies cw ch dpr ?b' es ?g'] =>
            pose proof (IH b' g') as I;
            change (bulletHits b') with (bulletHits b) in I;
            change (killedBy b') with (killedBy b) in I;
            assert (Hsc : score g' = score g + 50)
              by (simpl; destruct (Rltb (rng g 0%nat) 0.04); simpl;
                  rewrite ?spawnPowerUp_score; reflexivity);
            assert (Hsx : sfx g' = sfx g ++ [SfxBoom])
              by (simpl; destruct (Rltb (rng g 0%nat) 0.04); simpl; [use_shapes|];
                  reflexivity);
            rewrite Hsc, Hsx in I; clear Hsc Hsx;
            destruct (bulletVsEnemies cw ch dpr b' es g') as [[b2 es2] g5]
        end.
        cbn [fst snd length] in *.
        destruct I as (I1 & I2 & I3 & I4 & I5 & I6 & I7).
        rewrite I1, I2, I3, I4, I5, I6, I7, S_INR, <- app_assoc.
        cbn [map app b_ttl b_x b_y b_r]. rewrite Hk.
        repeat split; try reflexivity; try lra.
        destruct (existsb (bulletHits b) es); reflexivity.
      * pose proof (IH (mkBullet (b_x b) (b_y b) (b_vx b) (b_vy b) (b_r b) 0 (b_color b))
                       (play SfxHit g)) as I.
        change (bulletHits (mkBullet (b_x b) (b_y b) (b_vx b) (b_vy b) (b_r b) 0 (b_color b)))
          with (bulletHits b) in I.
        change (killedBy (mkBullet (b_x b) (b_y b) (b_vx b) (b_vy b) (b_r b) 0 (b_color b)))
          with (killedBy b) in I.
        destruct (bulletVsEnemies cw ch dpr _ es (play SfxHit g)) as [[b2 es2] g5].
        cbn [fst snd length] in *.
        destruct I as (I1 & I2 & I3 & I4 & I5 & I6 & I7).
        rewrite I1, I2, I3, I4, I5, I6, I7.
        cbn [map app b_ttl b_x b_y b_r score sfx play set_sfx]. rewrite Hk, <- app_assoc.
        repeat split; try reflexivity.
        destruct (existsb (bulletHits b) es); reflexivity.
    + pose proof (IH b g) as I.
      destruct (bulletVsEnemies cw ch dpr b es g) as [[b2 es2] g5].
      cbn [fst snd] in *.
      destruct I as (I1 & I2 & I3 & I4 & I5 & I6 & I7).
      rewrite I1, I2, I3, I4, I5, I6, I7. repeat split; reflexivity.
Qed.

(** X21.  The loop of one bullet over the hostiles, for a bullet that
    overlaps at most one hostile of the pool.  The hostile that the
    bullet overlaps loses one hit point and the others are untouched; if
    it is left with no hit point it is moved below the canvas
    ([y = ch + 100]), 50 is added to the score and the explosion plays;
    if it survives the hit sound plays; the bullet keeps its place and
    its lifetime is set to 0 exactly when it overlapped a hostile.  When
    the bullet destroys the only hostile of the pool, a pickup is left at
    the place where the hostile was exactly when the next draw is below
    0.04. *)
Theorem bullet_over_hostiles (cw ch dpr : R) (b : Bullet) (es : list Enemy) (g : Game) :
  (countIf (bulletHits b) es <= 1)%nat ->
  snd (fst (bulletVsEnemies cw ch dpr b es g))
  = map (fun e => if bulletHits b e then struck ch e else e) es
  /\ score (snd (bulletVsEnemies cw ch dpr b es g))
     = score g + 50 * INR (countIf (killedBy b) es)
  /\ (countIf (killedBy b) es <= 1)%nat
  /\ sfx (snd (bulletVsEnemies cw ch dpr b es g))
     = sfx g ++ map (fun e => if Rleb (e_hp e - 1) 0 then SfxBoom else SfxHit)
                    (filter (bulletHits b) es)
  /\ b_ttl (fst (fst (bulletVsEnemies cw ch dpr b es g)))
     = (if existsb (bulletHits b) es then 0 else b_ttl b)
  /\ b_x (fst (fst (bulletVsEnemies cw ch dpr b es g))) = b_x b
  /\ b_y (fst (fst (bulletVsEnemies cw ch dpr b es g))) = b_y b
  /\ (forall e, es = [e] -> killedBy b e = true ->
        (rng g 0%nat < 0.04 ->
           exists p, powerups (snd (bulletVsEnemies cw ch dpr b es g)) = powerups g ++ [p]
                     /\ p_x p = e_x e /\ p_y p = e_y e)
        /\ (0.04 <= rng g 0%nat ->
              powerups (snd (bulletVsEnemies cw ch dpr b es g)) = powerups g)).
Proof.
  intros Hone.
  destruct (bulletVsEnemies_pass cw ch dpr es b g) as (H1 & H2 & H3 & H4 & H5 & H6 & _).
  split; [exact H1|]. split; [exact H2|]. split.
  { unfold countIf in *. etransitivity; [|exact Hone].
    clear. induction es as [|e es IH]; simpl; [lia|].
    unfold killedBy at 1. destruct (bulletHits b e); simpl; [|exact IH].
    destruct (Rleb (e_hp e - 1) 0); simpl; lia. }
  split; [exact H3|]. split; [exact H4|].
  split; [exact H5|]. split; [exact H6|].
  intros e -> Hk. unfold killedBy, bulletHits in Hk. apply andb_prop in Hk.
  destruct Hk as [Hh Hz]. cbn [bulletVsEnemies random]. rewrite Hh, Hz. cbn [snd rng set_score].
  split.
  - intros Hd. rewrite Rltb_true by exact Hd.
    match goal with
    | |- context [spawnPowerUp ?W ?d ?pos ?g'] =>
        destruct (spawnPowerUp_shape W d pos g')
          as (p & k & Hp & _ & _ & _ & _ & _ & _ & Hpos & _);
        rewrite Hp
    end.
    exists p. split; [reflexivity|]. apply (Hpos _ eq_refl).
  - intros Hd. rewrite Rltb_false by exact Hd. reflexivity.
Qed.

(** A bullet over a drone with one hit point, the next draw being 0.5. *)
Lemma bullet_over_hostiles_witness :
  let b := mkBullet 100 200 0 (-900) 4 1.5 "#00fff0" in
  let e := mkEnemy 100 195 0 140 12 1 drone in
  score (snd (bulletVsEnemies 800 600 1 b [e] (game0 (fun _ => 0.5))))
  = 0 + 50 * INR (countIf (killedBy b) [e])
  /\ powerups (snd (bulletVsEnemies 800 600 1 b [e] (game0 (fun _ => 0.5)))) = [].
Proof.
  intros b e.
  assert (Hkill : killedBy b e = true).
  { unfold killedBy, bulletHits, hit; simpl. cmp. reflexivity. }
  destruct (bullet_over_hostiles 800 600 1 b [e] (game0 (fun _ => 0.5)))
    as (_ & Hs & _ & _ & _ & _ & _ & H).
  - unfold countIf; simpl. destruct (bulletHits b e); simpl; lia.
  - split; [exact Hs|].
    destruct (H e eq_refl Hkill) as [_ Hno]. apply Hno. simpl. lra.
Defined.

(** ** Lifetimes *)

Lemma updateBullets_ttl (d T : R) (bs : list Bullet) :
  Forall (fun b => b_ttl b <= T) bs ->
  Forall (fun b => 0 < b_ttl b <= T - d) (updateBullets d bs).
Proof.
  intros Hall. unfold updateBullets. apply Forall_forall. intros b Hin.
  apply in_map_iff in Hin. destruct Hin as (b1 & <- & Hin).
  apply filter_In in Hin. destruct Hin as [Hin Hal].
  apply in_map_iff in Hin. destruct Hin as (b0 & <- & Hin).
  rewrite Forall_forall in Hall. specialize (Hall b0 Hin).
  unfold bulletAlive in Hal. apply andb_prop in Hal. destruct Hal as [Hal _].
  apply Rltb_true_iff in Hal. simpl in *. lra.
Qed.

Lemma updatePowerUps_ttl (H d T : R) (l : list PowerUp) :
  Forall (fun p => p_ttl p <= T) l ->
  Forall (fun p => 0 < p_ttl p <= T - d) (updatePowerUps H d l).
Proof.
  intros Hall. unfold updatePowerUps. apply Forall_forall. intros p Hin.
  apply filter_In in Hin. destruct Hin as [Hin Hal].
  apply in_map_iff in Hin. destruct Hin as (p0 & <- & Hin).
  rewrite Forall_forall in Hall. specialize (Hall p0 Hin).
  unfold powerUpGone in Hal. apply negb_true_iff, orb_false_elim in Hal.
  destruct Hal as [Hal _]. apply Rleb_false_iff in Hal. simpl in *. lra.
Qed.

Lemma Forall_empty_range {A : Type} (f : A -> R) (T : R) (l : list A) :
  T <= 0 -> Forall (fun a => 0 < f a <= T) l -> l = [].
Proof.
  intros HT Hall. destruct l as [|a l]; [reflexivity|].
  inversion Hall as [|? ? Ha _]; subst. lra.
Qed.

(** X22.  Lifetimes run out.  After one frame or more, once the elapsed
    times of the frames add up to the largest lifetime in the pool, no
    bullet of the pool is left, whatever the bullets hit or missed; and
    likewise for the pickups.  A bullet is fired with a lifetime of 2 and
    a pickup spawned with a lifetime of 8, so a bullet lives less than
    2 s of game time and a pickup less than 8 s. *)
Theorem lifetimes_expire (H T : R) (d : R) (ds : list R) :
  T <= Rsum (d :: ds) ->
  (forall bs, Forall (fun b => b_ttl b <= T) bs -> updateBulletsAll (d :: ds) bs = [])
  /\ (forall l, Forall (fun p => p_ttl p <= T) l -> updatePowerUpsAll H (d :: ds) l = []).
Proof.
  revert T d. unfold updateBulletsAll, updatePowerUpsAll.
  induction ds as [|d' ds IH]; intros T d HT.
  - unfold Rsum in HT; simpl in HT. split.
    + intros bs Hb. simpl.
      apply (Forall_empty_range b_ttl (T - d)); [lra | apply updateBullets_ttl; exact Hb].
    + intros l Hl. simpl.
      apply (Forall_empty_range p_ttl (T - d)); [lra | apply updatePowerUps_ttl; exact Hl].
  - assert (HT' : T - d <= Rsum (d' :: ds)) by (unfold Rsum in *; simpl in *; lra).
    destruct (IH (T - d) d' HT') as [Ib Ip]. split.
    + intros bs Hb. change (fold_left (fun bs0 d0 => updateBullets d0 bs0) (d :: d' :: ds) bs)
        with (fold_left (fun bs0 d0 => updateBullets d0 bs0) (d' :: ds) (updateBullets d bs)).
      apply Ib. eapply Forall_impl; [|apply (updateBullets_ttl d T); exact Hb].
      simpl. intros b Hb'. lra.
    + intros l Hl. change (fold_left (fun l0 d0 => updatePowerUps H d0 l0) (d :: d' :: ds) l)
        with (fold_left (fun l0 d0 => updatePowerUps H d0 l0) (d' :: ds) (updatePowerUps H d l)).
      apply Ip. eapply Forall_impl; [|apply (updatePowerUps_ttl H d T); exact Hl].
      simpl. intros p Hp'. lra.
Qed.

(** A fresh bullet over three frames of one second. *)
Lemma lifetimes_expire_witness :
  updateBulletsAll [1; 1; 1] [mkBullet 100 5000 0 (-900) 4 2 "#00fff0"] = [].
Proof.
  destruct (lifetimes_expire 600 2 1 [1; 1]) as [Hb _].
  - unfold Rsum; simpl; lra.
  - apply Hb. constructor; [simpl; lra | constructor].
Defined.

(** ** Shooting *)

Lemma shooting_fire (dpr : R) (g : Game) :
  t_shoot (timers g) <= 0 ->
  shooting dpr true g
  = play SfxShoot
      (set_timers (set_t_shoot (fireRate (ship g)) (timers g))
         (set_bullets (bullets g ++ volley dpr (ship g)) g)).
Proof.
  intros Hready. unfold shooting, volley, fireRate.
  rewrite Rleb_true by exact Hready. cbn [andb].
  destruct (Rltb 0 (rapidT (ship g))); unfold spawnBullet, play, set_sfx, set_timers,
    set_bullets; simpl; rewrite <- ?app_assoc; reflexivity.
Qed.

Lemma shooting_idle (dpr : R) (auto : bool) (g : Game) :
  auto = false \/ 0 < t_shoot (timers g) -> shooting dpr auto g = g.
Proof.
  intros [Hoff | Hcool]; unfold shooting.
  - rewrite Hoff. reflexivity.
  - rewrite Rleb_false by exact Hcool. destruct auto; reflexivity.
Qed.

(** X23.  With autofire off, or while the fire cooldown is positive, the
    shooting block does nothing.  Otherwise it fires one volley: one
    bullet, or three under rapid fire, each with lifetime 2 and radius
    [4 dpr], starting above the centre of the ship and going up (for
    [dpr > 0]); it plays the shot once and sets the cooldown to 0.18, or
    0.08 under rapid fire; and no other volley is fired until the frames
    have used up that cooldown. *)
Theorem shooting_volley (dpr : R) (auto : bool) (g : Game) :
  (auto = false \/ 0 < t_shoot (timers g) -> shooting dpr auto g = g)
  /\ (auto = true -> t_shoot (timers g) <= 0 ->
      exists bs,
        bullets (shooting dpr auto g) = bullets g ++ bs
        /\ length bs = (if Rltb 0 (rapidT (ship g)) then 3 else 1)%nat
        /\ t_shoot (timers (shooting dpr auto g))
           = (if Rltb 0 (rapidT (ship g)) then 0.08 else 0.18)
        /\ sfx (shooting dpr auto g) = sfx g ++ [SfxShoot]
        /\ Forall (fun b => b_ttl b = 2 /\ b_r b = 4 * dpr
                            /\ (0 < dpr -> b_vy b < 0 /\ b_y b < s_y (ship g))) bs
        /\ (forall d, d < t_shoot (timers (shooting dpr auto g)) ->
              shooting dpr auto
                (set_timers (tickTimers d (timers (shooting dpr auto g)))
                            (shooting dpr auto g))
              = set_timers (tickTimers d (timers (shooting dpr auto g)))
                           (shooting dpr auto g))).
Proof.
  split; [apply shooting_idle|].
  intros Hon Hready. rewrite Hon, (shooting_fire dpr g Hready).
  exists (volley dpr (ship g)).
  split; [reflexivity|].
  split; [unfold volley; destruct (Rltb 0 (rapidT (ship g))); reflexivity|].
  split; [reflexivity|]. split; [reflexivity|]. split.
  - unfold volley. destruct (Rltb 0 (rapidT (ship g)));
      repeat (constructor; [simpl; repeat split; intros; lra|]); constructor.
  - intros d Hd. apply shooting_idle. right.
    cbn [timers play set_sfx set_timers tickTimers t_shoot set_t_shoot] in *. lra.
Qed.

(** The first volley of the initial state, and the block 32 ms later. *)
Lemma shooting_volley_witness :
  let g := game0 (fun _ => 0) in
  exists bs,
    bullets (shooting 1 true g) = bs /\ length bs = 1%nat
    /\ t_shoot (timers (shooting 1 true g)) = 0.18.
Proof.
  intros g.
  destruct (shooting_volley 1 true g) as [_ H].
  destruct (H eq_refl) as (bs & Hb & Hl & Ht & _); [simpl; lra|].
  exists bs. split; [exact Hb|]. split.
  - rewrite Hl. simpl. rewrite Rltb_false by lra. reflexivity.
  - rewrite Ht. simpl. rewrite Rltb_false by lra. reflexivity.
Defined.

(** ** Pointer *)

Lemma moves_while_up (left top : R) (es : list PointerEvent) :
  forall i, pointerDown i = false -> Forall isMove es ->
    fold_left (onPointer left top) es i = i.
Proof.
  induction es as [|e es IH]; intros i Hup Hall; simpl; [reflexivity|].
  inversion Hall as [|? ? He Hes]; subst.
  destruct e as [x y | x y |]; simpl in He; try contradiction.
  simpl. rewrite Hup. apply IH; assumption.
Qed.

Lemma moves_while_down (left top : R) (es : list PointerEvent) :
  forall i, pointerDown i = true -> Forall isMove es ->
    pointerDown (fold_left (onPointer left top) es i) = true.
Proof.
  induction es as [|e es IH]; intros i Hdown Hall; simpl; [exact Hdown|].
  inversion Hall as [|? ? He Hes]; subst.
  destruct e as [x y | x y |]; simpl in He; try contradiction.
  simpl. rewrite Hdown. apply IH; [reflexivity | assumption].
Qed.

(** X24.  The target follows the pointer only while it is pressed.  A
    press on the canvas puts the target under the pointer, relative to
    the corner of the canvas; after a press and any moves, a further
    move puts the target under the pointer.  After a release, and at
    first, moves of the pointer leave the target where it is. *)
Theorem pointer_target (left top : R) (i : Input) (es : list PointerEvent) :
  Forall isMove es ->
  (forall x y, fold_left (onPointer left top) [PDown x y] i
               = mkInput true (getPos left top x y))
  /\ (forall x y x' y',
        fold_left (onPointer left top) (PDown x y :: es ++ [PMove x' y']) i
        = mkInput true (getPos left top x' y'))
  /\ fold_left (onPointer left top) (PUp :: es) i = mkInput false (in_target i)
  /\ fold_left (onPointer left top) es input0 = input0.
Proof.
  intros Hall. split; [|split; [|split]].
  - reflexivity.
  - intros x y x' y'. cbn [fold_left]. rewrite fold_left_app. cbn [fold_left].
    pose proof (moves_while_down left top es (onPointer left top i (PDown x y))
                  eq_refl Hall) as Hd.
    unfold onPointer at 1. rewrite Hd. reflexivity.
  - cbn [fold_left]. apply moves_while_up; [reflexivity | exact Hall].
  - apply moves_while_up; [reflexivity | exact Hall].
Qed.

(** The canvas at (10, 50) on the page: a press, two moves, a release and
    a move. *)
Lemma pointer_target_witness :
  fold_left (onPointer 10 50) (PDown 110 150 :: [PMove 120 160] ++ [PMove 130 170]) input0
  = mkInput true (getPos 10 50 130 170)
  /\ fold_left (onPointer 10 50) (PUp :: [PMove 300 300]) input0
     = mkInput false (mkVec 200 300).
Proof.
  destruct (pointer_target 10 50 input0 [PMove 120 160]) as (_ & Hm & _).
  { repeat constructor. }
  destruct (pointer_target 10 50 input0 [PMove 300 300]) as (_ & _ & Hu & _).
  { repeat constructor. }
  split; [apply Hm | exact Hu].
Defined.
